(** * fmb-ic-plus: the bus protocol, the measurement loop and the numeric rules

    A shallow embedding of [fmb/fmb_ic_plus.py]: the [RangeEnum] conversion,
    the value-fitting helpers of [FMBICPlusChannel], the serial exchange of
    [FMBICPlusHost.query] with the commands built on it, and the averaging
    loop of [FMBICPlusChannel.__measure].

    Python [float] is IEEE binary64 and is modelled by Rocq's primitive
    [float]; Python [int] is [Z]; [bytes] and ASCII [str] are [string]
    (a list of 8-bit characters); an exception is a value of [exn] carried
    by [result]. *)

From Stdlib Require Import ZArith List String Ascii Bool Lia Floats.
Import ListNotations.

#[local] Set Warnings "-inexact-float".
Local Open Scope string_scope.
Local Open Scope Z_scope.

(** ** Python values *)

(** The exceptions this module can meet. *)
Inductive exn : Set :=
| SerialException
| DevFailed
| ValueError
| OverflowError
| ZeroDivisionError
| IndexError.

Inductive result (A : Type) : Type :=
| Ok (a : A)
| Raise (e : exn).

Arguments Ok {A} a.
Arguments Raise {A} e.

Definition bind {A B : Type} (r : result A) (k : A -> result B) : result B :=
  match r with
  | Ok a => k a
  | Raise e => Raise e
  end.

Notation "x <- r ;; k" := (bind r (fun x => k))
  (at level 61, r at next level, right associativity).

(** A number held in a Python variable that is assigned both [int] and
    [float] values ([result], [_raw_current]). *)
Inductive pynum : Set :=
| PInt (z : Z)
| PFloat (f : float).

(** *** int to float *)

(** The binary64 value nearest to an integer (ties to even), as
    [PyLong_AsDouble] rounds it; an infinity stands for a magnitude beyond
    the largest finite double. *)
Definition int_to_SF (z : Z) : spec_float := binary_normalize prec emax z 0 false.

Definition int_to_float (z : Z) : float := SF2Prim (int_to_SF z).

(** [float(z)] as Python's mixed arithmetic performs it: [OverflowError]
    when the integer is too large for a double. *)
Definition float_of_int (z : Z) : result float :=
  match int_to_SF z with
  | S754_infinity _ => Raise OverflowError
  | sf => Ok (SF2Prim sf)
  end.

(** An integer with its exact value as mantissa (not a normal form). *)
Definition exact_SF (z : Z) : spec_float :=
  match z with
  | Z0 => S754_zero false
  | Zpos p => S754_finite false p 0
  | Zneg p => S754_finite true p 0
  end.

(** [a / b] on two [int]s: the correctly rounded quotient. *)
Definition int_truediv (a b : Z) : result float :=
  if b =? 0 then Raise ZeroDivisionError
  else match SFdiv prec emax (exact_SF a) (exact_SF b) with
       | S754_infinity _ => Raise OverflowError
       | sf => Ok (SF2Prim sf)
       end.

(** [int(x)] on a float: truncation toward zero. *)
Definition int_of_float (x : float) : result Z :=
  match Prim2SF x with
  | S754_nan => Raise ValueError
  | S754_infinity _ => Raise OverflowError
  | S754_zero _ => Ok 0
  | S754_finite s m e =>
      let a := if 0 <=? e then Z.shiftl (Zpos m) e else Z.shiftr (Zpos m) (- e) in
      Ok (if s then - a else a)
  end.

(** Python's two-argument [min] and [max]: the second argument replaces
    the first only when it compares strictly smaller (greater). *)
Definition py_min (a b : float) : float := if (b <? a)%float then b else a.
Definition py_max (a b : float) : float := if (a <? b)%float then b else a.

(** ** RangeEnum *)

Inductive RangeEnum : Set :=
| RANGE_1 | RANGE_2 | RANGE_3 | RANGE_4 | RANGE_5 | RANGE_6.

Definition ordinal (r : RangeEnum) : Z :=
  match r with
  | RANGE_1 => 0 | RANGE_2 => 1 | RANGE_3 => 2
  | RANGE_4 => 3 | RANGE_5 => 4 | RANGE_6 => 5
  end.

(** [RangeEnum(n)]: [ValueError] outside the six members. *)
Definition RangeEnum_of_int (n : Z) : result RangeEnum :=
  match n with
  | 0 => Ok RANGE_1 | 1 => Ok RANGE_2 | 2 => Ok RANGE_3
  | 3 => Ok RANGE_4 | 4 => Ok RANGE_5 | 5 => Ok RANGE_6
  | _ => Raise ValueError
  end.

Module Range.

(** [1e2 * pow(10, self)]: [pow] of two ints is an int, which the
    product converts to float (never out of range for six ordinals). *)
Definition min (r : RangeEnum) : float :=
  (1e2 * int_to_float (10 ^ ordinal r))%float.

Definition max (r : RangeEnum) : float :=
  (1e6 * int_to_float (10 ^ ordinal r))%float.

(** [self.max() / 262144000 * int_representation * 1e-15] *)
Definition to_amperes (r : RangeEnum) (int_representation : Z) : result float :=
  x <- float_of_int int_representation ;;
  Ok (max r / int_to_float 262144000 * x * 1e-15)%float.

End Range.

(** ** The fitting helpers of FMBICPlusChannel *)

Definition MIN_VOLTAGE : Z := 0.
Definition MAX_VOLTAGE : Z := 1700.
Definition MIN_OFFSET : Z := 0.
Definition MAX_OFFSET : Z := 99.
Definition MIN_EXPOSITION_TIME : float := 1e-6%float.
Definition MAX_EXPOSITION_TIME : float := int_to_float (24 * 60 * 60).

Definition fit_voltage_range (high_voltage : Z) : Z :=
  let high_voltage := Z.min high_voltage MAX_VOLTAGE in
  let high_voltage := Z.max high_voltage MIN_VOLTAGE in
  high_voltage.

Definition fit_offset_range (offset : Z) : Z :=
  let offset := Z.min offset MAX_OFFSET in
  let offset := Z.max offset MIN_OFFSET in
  offset.

Definition fit_exp_time_range (exposition_time : float) : float :=
  let exposition_time := py_min exposition_time MAX_EXPOSITION_TIME in
  let exposition_time := py_max exposition_time MIN_EXPOSITION_TIME in
  exposition_time.

(** ** Text: [str.format] of an int, [int] of a byte string *)

Definition LF : string := String "010"%char EmptyString.

(** The acknowledgement byte [b'\x06']. *)
Definition ACK : string := String "006"%char EmptyString.

Definition digit_char (d : Z) : ascii := ascii_of_N (Z.to_N (48 + d)).

Fixpoint dec_digits (fuel : nat) (n : Z) (acc : string) : string :=
  match fuel with
  | O => acc
  | S fuel' =>
      let acc' := String (digit_char (n mod 10)) acc in
      if n <? 10 then acc' else dec_digits fuel' (n / 10) acc'
  end.

Definition str_nat (n : Z) : string :=
  dec_digits (S (Z.to_nat (Z.log2 n))) n EmptyString.

(** ["{}".format(z)] for an int: decimal, with a minus sign below zero. *)
Definition str_int (z : Z) : string :=
  if z <? 0 then String "-"%char (str_nat (- z)) else str_nat z.

Definition code (c : ascii) : Z := Z.of_N (N_of_ascii c).

Definition is_digit (c : ascii) : bool := (48 <=? code c) && (code c <=? 57).

(** [Py_ISSPACE]: tab, LF, VT, FF, CR and the space. *)
Definition is_space (c : ascii) : bool :=
  ((9 <=? code c) && (code c <=? 13)) || (code c =? 32).

Fixpoint lstrip (cs : list ascii) : list ascii :=
  match cs with
  | c :: cs' => if is_space c then lstrip cs' else cs
  | [] => []
  end.

Definition strip (cs : list ascii) : list ascii := rev (lstrip (rev (lstrip cs))).

(** Digits with single underscores between them; [seen] counts the digit
    characters and [after_digit] tells whether the last character read was
    a digit. *)
Fixpoint parse_digits (cs : list ascii) (acc : Z) (seen : nat) (after_digit : bool)
  : option (Z * nat) :=
  match cs with
  | [] => if after_digit then Some (acc, seen) else None
  | c :: cs' =>
      if is_digit c then parse_digits cs' (10 * acc + (code c - 48)) (S seen) true
      else if Ascii.eqb c "_" && after_digit then parse_digits cs' acc seen false
      else None
  end.

(** CPython's default limit on the digits of a decimal conversion (3.11,
    and the security releases of 3.7 to 3.10). *)
Definition int_max_str_digits : nat := 4300.

Definition parse_int (cs : list ascii) : option Z :=
  let '(neg, ds) :=
    match strip cs with
    | c :: ds =>
        if Ascii.eqb c "-" then (true, ds)
        else if Ascii.eqb c "+" then (false, ds)
        else (false, c :: ds)
    | [] => (false, [])
    end in
  match parse_digits ds 0 0 false with
  | Some (n, seen) =>
      if (seen <=? int_max_str_digits)%nat then Some (if neg then - n else n) else None
  | None => None
  end.

(** [int(b)] on a byte string, base ten. *)
Definition int_of_bytes (b : string) : result Z :=
  match parse_int (list_ascii_of_string b) with
  | Some z => Ok z
  | None => Raise ValueError
  end.

(** [answer[1:-1]] *)
Definition slice_1_m1 (answer : string) : string :=
  substring 1 (String.length answer - 2) answer.

(** ** State and exceptions *)

(** A computation over a state [S]: it returns or raises, and leaves a state
    either way. *)
Definition M (S A : Type) : Type := S -> result A * S.

Definition ret {S A : Type} (a : A) : M S A := fun s => (Ok a, s).
Definition raise {S A : Type} (e : exn) : M S A := fun s => (Raise e, s).

Definition bindM {S A B : Type} (m : M S A) (k : A -> M S B) : M S B :=
  fun s => match m s with
           | (Ok a, s') => k a s'
           | (Raise e, s') => (Raise e, s')
           end.

Definition gets {S A : Type} (f : S -> A) : M S A := fun s => (Ok (f s), s).
Definition modify {S : Type} (f : S -> S) : M S unit := fun s => (Ok tt, f s).
Definition lift {S A : Type} (r : result A) : M S A := fun s => (r, s).

(** [try: body except: handler] *)
Definition try_except {S A : Type} (body : M S A) (handler : exn -> M S A) : M S A :=
  fun s => match body s with
           | (Ok a, s') => (Ok a, s')
           | (Raise e, s') => handler e s'
           end.

(** [try: body finally: final], where [final] does not raise. *)
Definition try_finally {S A : Type} (body : M S A) (final : S -> S) : M S A :=
  fun s => let '(r, s') := body s in (r, final s').

Declare Scope m_scope.
Delimit Scope m_scope with m.
Notation "x <-- m ; k" := (bindM m (fun x => k))
  (at level 61, m at next level, right associativity) : m_scope.
Notation "m ;;; k" := (bindM m (fun _ => k))
  (at level 61, right associativity) : m_scope.

Local Open Scope m_scope.

(** ** FMBICPlusHost: the shared serial link *)

Inductive DevState : Set := ON | RUNNING | FAULT.

(** What the serial port does on its next call: [write] fails, the read
    fails, or the read returns these bytes (all that [readline()] or
    [read()] delivers before its timeout, possibly nothing). *)
Inductive port_event : Set :=
| WriteError
| ReadError
| Received (answer : string).

Record Host : Type := mkHost {
  command_timeout : float;
  port_timeout : float;          (* [_port.timeout] *)
  wire : list string;            (* every command written to the port, oldest first *)
  port_io : list port_event;     (* the behaviour of the port on the coming calls *)
  lock_count : nat;              (* recursion level of [_lock] *)
  host_state : DevState
}.

Definition MAX_CHANNELS : Z := 15.

Definition lock_acquire (h : Host) : Host :=
  mkHost (command_timeout h) (port_timeout h) (wire h) (port_io h)
         (S (lock_count h)) (host_state h).

Definition lock_release (h : Host) : Host :=
  mkHost (command_timeout h) (port_timeout h) (wire h) (port_io h)
         (Nat.pred (lock_count h)) (host_state h).

Definition host_set_state (st : DevState) (h : Host) : Host :=
  mkHost (command_timeout h) (port_timeout h) (wire h) (port_io h)
         (lock_count h) st.

Definition set_port_timeout (t : float) (h : Host) : Host :=
  mkHost (command_timeout h) t (wire h) (port_io h) (lock_count h) (host_state h).

Definition set_port_io (io : list port_event) (h : Host) : Host :=
  mkHost (command_timeout h) (port_timeout h) (wire h) io (lock_count h) (host_state h).

Definition push_wire (cmd : string) (h : Host) : Host :=
  mkHost (command_timeout h) (port_timeout h) (wire h ++ [cmd]) (port_io h)
         (lock_count h) (host_state h).

(** [self._port.write(bytes(raw_command, 'ascii'))] *)
Definition port_write (raw_command : string) : M Host unit :=
  fun h => match port_io h with
           | WriteError :: io => (Raise SerialException, set_port_io io h)
           | _ => (Ok tt, push_wire raw_command h)
           end.

(** [self._port.readline()] and [self._port.read()]: a silent device
    leaves the call to time out with no byte. *)
Definition port_read : M Host string :=
  fun h => match port_io h with
           | [] => (Ok EmptyString, h)
           | Received answer :: io => (Ok answer, set_port_io io h)
           | _ :: io => (Raise SerialException, set_port_io io h)
           end.

Definition port_readline : M Host string := port_read.

(** The test that sends [query] to its sentinel. *)
Definition rejected (answer : string) (data_expected : bool) : bool :=
  (((Z.of_nat (String.length answer) <? 3) && data_expected)
   || (negb (String.eqb answer ACK) && negb data_expected))
  || (Nat.eqb (String.length answer) 0).

(** What [query] makes of an answer it has read: the sentinel, the
    integer between the framing bytes, or [0]. *)
Definition answer_result (answer : string) (data_expected : bool) : result Z :=
  if rejected answer data_expected then Ok (-1)
  else if data_expected then int_of_bytes (slice_1_m1 answer) else Ok 0.

(** The [try] block of [query]. *)
Definition query_body (raw_command : string) (data_expected : bool)
    (execution_time : float) : M Host Z :=
  modify lock_acquire ;;;
  port_write raw_command ;;;
  ct <-- gets command_timeout ;
  modify (set_port_timeout (ct + execution_time)%float) ;;;
  answer <-- (if data_expected then port_readline else port_read) ;
  if rejected answer data_expected then ret (-1)
  else
    data <-- (if data_expected then lift (int_of_bytes (slice_1_m1 answer)) else ret 0) ;
    ret data.

(** [execution_time] is the float the sum [command_timeout + execution_time]
    works with (the default [0] enters it as [0.0]). *)
Definition query (raw_command : string) (data_expected : bool)
    (execution_time : float) : M Host Z :=
  try_finally
    (try_except
       (query_body raw_command data_expected execution_time)
       (fun e => match e with
                 | SerialException => modify (host_set_state FAULT) ;;; raise DevFailed
                 | _ => raise e
                 end))
    lock_release.

Definition valid_channel (channel_id : Z) : bool :=
  (0 <=? channel_id) && (channel_id <=? MAX_CHANNELS).

(** [data[i]] on a list: [IndexError] past the end. *)
Definition index (data : list Z) (i : nat) : result Z :=
  match nth_error data i with
  | Some v => Ok v
  | None => Raise IndexError
  end.

Definition read_voltage (channel_id : Z) : M Host Z :=
  if valid_channel channel_id
  then query (":CONF" ++ str_int channel_id ++ ":VOLT?" ++ LF) true 0
  else ret (-1).

Definition write_voltage (data : list Z) : M Host unit :=
  match data with
  | [channel_id; voltage] =>
      if valid_channel channel_id
         && ((MIN_VOLTAGE <=? voltage) && (voltage <=? MAX_VOLTAGE))
      then query (":CONF" ++ str_int channel_id ++ ":VOLT " ++ str_int voltage ++ LF)
                 false 0 ;;; ret tt
      else ret tt
  | _ => ret tt
  end.

Definition read_range (channel_id : Z) : M Host Z :=
  if valid_channel channel_id
  then query (":CONF" ++ str_int channel_id ++ ":CURR:RANG?" ++ LF) true 0
  else ret (-1).

Definition write_range (data : list Z) : M Host unit :=
  channel_id <-- lift (index data 0) ;
  range <-- lift (index data 1) ;
  query (":CONF" ++ str_int channel_id ++ ":CURR:RANG " ++ str_int range ++ LF)
        false 0 ;;; ret tt.

Definition read_offset (channel_id : Z) : M Host Z :=
  if valid_channel channel_id
  then query (":CONF" ++ str_int channel_id ++ ":CURR:OFFS?" ++ LF) true 0
  else ret (-1).

Definition write_offset (data : list Z) : M Host unit :=
  match data with
  | [channel_id; offset] =>
      if valid_channel channel_id
         && ((MIN_OFFSET <=? offset) && (offset <? MAX_OFFSET))
      then query (":CONF" ++ str_int channel_id ++ ":CURR:OFFS " ++ str_int offset ++ LF)
                 false 0 ;;; ret tt
      else ret tt
  | _ => ret tt
  end.

Definition reset (channel_id : Z) : M Host unit :=
  query ("*RST" ++ str_int channel_id ++ LF) false 0 ;;; ret tt.

Definition measure (data : list Z) : M Host Z :=
  match data with
  | [channel_id; hint] =>
      if valid_channel channel_id
      then
        h <-- lift (float_of_int hint) ;
        let execution_time := (h * MIN_EXPOSITION_TIME)%float in
        query (":READ" ++ str_int channel_id ++ ":CURR?" ++ LF) true execution_time
      else ret (-1)
  | _ => ret (-1)
  end.

(** ** FMBICPlusChannel *)

Record Channel : Type := mkChannel {
  address : Z;
  _high_voltage : Z;
  _range : RangeEnum;
  _offset : Z;
  _exposition_time : float;
  _current : float;
  _raw_current : pynum;
  _stop : bool;
  state : DevState
}.

Definition set_state (st : DevState) (c : Channel) : Channel :=
  mkChannel (address c) (_high_voltage c) (_range c) (_offset c)
            (_exposition_time c) (_current c) (_raw_current c) (_stop c) st.

Definition set_high_voltage (v : Z) (c : Channel) : Channel :=
  mkChannel (address c) v (_range c) (_offset c)
            (_exposition_time c) (_current c) (_raw_current c) (_stop c) (state c).

Definition set_exposition_time (t : float) (c : Channel) : Channel :=
  mkChannel (address c) (_high_voltage c) (_range c) (_offset c)
            t (_current c) (_raw_current c) (_stop c) (state c).

Definition set_current (x : float) (c : Channel) : Channel :=
  mkChannel (address c) (_high_voltage c) (_range c) (_offset c)
            (_exposition_time c) x (_raw_current c) (_stop c) (state c).

Definition set_raw_current (x : pynum) (c : Channel) : Channel :=
  mkChannel (address c) (_high_voltage c) (_range c) (_offset c)
            (_exposition_time c) (_current c) x (_stop c) (state c).

Definition set_stop (b : bool) (c : Channel) : Channel :=
  mkChannel (address c) (_high_voltage c) (_range c) (_offset c)
            (_exposition_time c) (_current c) (_raw_current c) b (state c).

(** A channel device together with the host device its [_host] proxy
    points to. *)
Record World : Type := mkWorld {
  chan : Channel;
  host : Host
}.

(** A method of the channel that does not touch the host. *)
Definition on_chan {A : Type} (m : M Channel A) : M World A :=
  fun w => let '(r, c) := m (chan w) in (r, mkWorld c (host w)).

(** A command sent through [DeviceProxy]: it runs on the host device, and
    whatever it raises there reaches the caller as [DevFailed]. *)
Definition proxy {A : Type} (m : M Host A) : M World A :=
  fun w => match m (host w) with
           | (Ok a, h) => (Ok a, mkWorld (chan w) h)
           | (Raise _, h) => (Raise DevFailed, mkWorld (chan w) h)
           end.

Definition DevState_eqb (a b : DevState) : bool :=
  match a, b with
  | ON, ON | RUNNING, RUNNING | FAULT, FAULT => true
  | _, _ => false
  end.

(** The [high_voltage] setter. *)
Definition write_high_voltage (high_voltage : Z) : M World unit :=
  st <-- on_chan (gets state) ;
  if DevState_eqb st ON then
    on_chan (modify (set_high_voltage (fit_voltage_range high_voltage))) ;;;
    addr <-- on_chan (gets address) ;
    proxy (write_voltage [addr; high_voltage])
  else
    on_chan (modify (set_state FAULT)) ;;; raise DevFailed.

(** The [exposition_time] setter. *)
Definition write_exposition_time (exposition_time : float) : M Channel unit :=
  st <-- gets state ;
  if DevState_eqb st ON then
    modify (set_exposition_time (fit_exp_time_range exposition_time))
  else
    modify (set_state FAULT) ;;; raise DevFailed.

(** The [stop] command. *)
Definition stop : M Channel unit :=
  st <-- gets state ;
  if DevState_eqb st RUNNING then
    modify (set_stop true) ;;; modify (set_state ON)
  else if DevState_eqb st ON then
    modify (set_stop true)
  else
    modify (set_state FAULT) ;;; raise DevFailed.

(** *** The measurement loop *)

(** [result += x] and [result / cycles] on a variable that starts as the
    int [0] and turns into a float with the first sum. *)
Definition py_add (a : pynum) (x : float) : result float :=
  match a with
  | PInt z => f <- float_of_int z ;; Ok (f + x)%float
  | PFloat f => Ok (f + x)%float
  end.

Definition py_truediv (a : pynum) (n : Z) : result float :=
  match a with
  | PInt z => int_truediv z n
  | PFloat f =>
      d <- float_of_int n ;;
      if (d =? 0)%float then Raise ZeroDivisionError else Ok (f / d)%float
  end.

(** The loop variables; [accepted] is a ghost record of the raw counts that
    were accumulated, latest first. *)
Record accum : Type := mkAccum {
  result_ : pynum;
  result_raw : Z;
  cycles : Z;
  accepted : list Z
}.

Definition accum0 : accum := mkAccum (PInt 0) 0 0 [].

(** What the loop meets each time it evaluates its condition: the reading
    of [time.perf_counter()], and whether another thread has run the [stop]
    command since the previous evaluation. *)
Record tick : Type := mkTick {
  now : float;
  stop_called : bool
}.

Inductive control : Type :=
| Break
| Next (a : accum).

(** The [try] block inside the loop. *)
Definition loop_try (a : accum) : M World control :=
  stopped <-- on_chan (gets _stop) ;
  if stopped then ret Break
  else
    addr <-- on_chan (gets address) ;
    expo <-- on_chan (gets _exposition_time) ;
    hint <-- lift (int_of_float (expo / MIN_EXPOSITION_TIME)%float) ;
    iter <-- proxy (measure [addr; hint]) ;
    if iter =? -1 then ret (Next a)
    else
      rng <-- on_chan (gets _range) ;
      amps <-- lift (Range.to_amperes rng iter) ;
      sum <-- lift (py_add (result_ a) amps) ;
      ret (Next (mkAccum (PFloat sum) (result_raw a + iter) (cycles a + 1)
                         (iter :: accepted a))).

Definition loop_body (a : accum) : M World control :=
  try_except (loop_try a)
    (fun e => match e with
              | SerialException =>
                  on_chan (modify (set_state FAULT)) ;;; raise DevFailed
              | _ => raise e
              end).

(** The [while] loop over the ticks it is given; [None] when they run out
    before the loop has left. *)
Fixpoint measure_loop (start_time : float) (ticks : list tick) (a : accum)
  : M World (option accum) :=
  match ticks with
  | [] => ret None
  | tk :: ticks' =>
      (if stop_called tk
       then on_chan (try_except stop (fun _ => ret tt))
       else ret tt) ;;;
      expo <-- on_chan (gets _exposition_time) ;
      if (now tk - start_time <=? expo)%float then
        c <-- loop_body a ;
        match c with
        | Break => ret (Some a)
        | Next a' => measure_loop start_time ticks' a'
        end
      else ret (Some a)
  end.

(** The statements after the loop. *)
Definition loop_exit (a : accum) : M World unit :=
  (if 0 <? cycles a then
     cur <-- lift (py_truediv (result_ a) (cycles a)) ;
     on_chan (modify (set_current cur)) ;;;
     raw <-- lift (int_truediv (result_raw a) (cycles a)) ;
     on_chan (modify (set_raw_current (PFloat raw)))
   else
     on_chan (modify (set_current nan)) ;;;
     on_chan (modify (set_raw_current (PInt (-1))))) ;;;
  on_chan (modify (set_stop false)) ;;;
  on_chan (modify (set_state ON)).

(** [__measure]: [Ok (Some a)] when the method has run to its end, with
    the loop variables it ended on; [Ok None] when the ticks ran out. *)
Definition __measure (start_time : float) (ticks : list tick)
  : M World (option accum) :=
  on_chan (modify (set_state RUNNING)) ;;;
  r <-- measure_loop start_time ticks accum0 ;
  match r with
  | Some a => loop_exit a ;;; ret (Some a)
  | None => ret None
  end.

(** *** The other accessors and commands of the channel *)

Definition set_range (r : RangeEnum) (c : Channel) : Channel :=
  mkChannel (address c) (_high_voltage c) r (_offset c)
            (_exposition_time c) (_current c) (_raw_current c) (_stop c) (state c).

Definition set_offset (o : Z) (c : Channel) : Channel :=
  mkChannel (address c) (_high_voltage c) (_range c) o
            (_exposition_time c) (_current c) (_raw_current c) (_stop c) (state c).

Module Chan.

(** The getters of [high_voltage], [range], [offset] and
    [exposition_time]: the field in ON and RUNNING, FAULT and [DevFailed]
    otherwise. *)
Definition read_guarded {A : Type} (field : Channel -> A) : M Channel A :=
  st <-- gets state ;
  if DevState_eqb st ON || DevState_eqb st RUNNING then gets field
  else modify (set_state FAULT) ;;; raise DevFailed.

Definition get_high_voltage : M Channel Z := read_guarded _high_voltage.
Definition get_range : M Channel RangeEnum := read_guarded _range.
Definition get_offset : M Channel Z := read_guarded _offset.
Definition get_exposition_time : M Channel float := read_guarded _exposition_time.

(** The getters of [current] and [raw_current]: outside ON and RUNNING
    they set FAULT and return NaN instead of raising. *)
Definition get_current : M Channel float :=
  st <-- gets state ;
  if DevState_eqb st ON || DevState_eqb st RUNNING then gets _current
  else modify (set_state FAULT) ;;; ret nan.

Definition get_raw_current : M Channel pynum :=
  st <-- gets state ;
  if DevState_eqb st ON || DevState_eqb st RUNNING then gets _raw_current
  else modify (set_state FAULT) ;;; ret (PFloat nan).

(** The [range] setter: [RangeEnum(range)] first, then the 1-based number
    to the host. *)
Definition write_range (range : Z) : M World unit :=
  st <-- on_chan (gets state) ;
  if DevState_eqb st ON then
    r <-- lift (RangeEnum_of_int range) ;
    on_chan (modify (set_range r)) ;;;
    addr <-- on_chan (gets address) ;
    proxy (write_range [addr; range + 1])
  else
    on_chan (modify (set_state FAULT)) ;;; raise DevFailed.

(** The [offset] setter: the fitted value, the write, then the read-back. *)
Definition write_offset (offset : Z) : M World unit :=
  st <-- on_chan (gets state) ;
  if DevState_eqb st ON then
    on_chan (modify (set_offset (fit_offset_range offset))) ;;;
    addr <-- on_chan (gets address) ;
    proxy (write_offset [addr; offset]) ;;;
    addr' <-- on_chan (gets address) ;
    o <-- proxy (read_offset addr') ;
    on_chan (modify (set_offset o))
  else
    on_chan (modify (set_state FAULT)) ;;; raise DevFailed.

Definition get_ic_chamber_parameters : M World unit :=
  addr <-- on_chan (gets address) ;
  v <-- proxy (read_voltage addr) ;
  on_chan (modify (set_high_voltage v)) ;;;
  addr <-- on_chan (gets address) ;
  n <-- proxy (read_range addr) ;
  r <-- lift (RangeEnum_of_int (n - 1)) ;
  on_chan (modify (set_range r)) ;;;
  addr <-- on_chan (gets address) ;
  o <-- proxy (read_offset addr) ;
  on_chan (modify (set_offset o)).

(** The [start] command, up to the thread it starts; that thread runs
    [__measure]. *)
Definition start : M Channel unit :=
  st <-- gets state ;
  if DevState_eqb st ON then modify (set_stop false)
  else modify (set_state FAULT) ;;; raise DevFailed.

(** The [reset] command of the channel. *)
Definition reset : M World unit :=
  st <-- on_chan (gets state) ;
  if DevState_eqb st ON then
    addr <-- on_chan (gets address) ;
    proxy (reset addr) ;;;
    get_ic_chamber_parameters
  else
    on_chan (modify (set_state FAULT)) ;;; raise DevFailed.

(** What a client can ask of a channel. *)
Inductive request : Type :=
| ReadHighVoltage | ReadRange | ReadOffset | ReadExpositionTime
| ReadCurrent | ReadRawCurrent
| WriteHighVoltage (v : Z) | WriteRange (r : Z) | WriteOffset (o : Z)
| WriteExpositionTime (t : float)
| Start | Stop | Reset.

(** The value a request hands back, when it has one. *)
Inductive reply : Type :=
| NoValue
| IntValue (z : Z)
| RangeValue (r : RangeEnum)
| FloatValue (f : float)
| NumValue (n : pynum).

Definition map_reply {S A : Type} (f : A -> reply) (m : M S A) : M S reply :=
  x <-- m ; ret (f x).

Definition serve (q : request) : M World reply :=
  match q with
  | ReadHighVoltage => on_chan (map_reply IntValue get_high_voltage)
  | ReadRange => on_chan (map_reply RangeValue get_range)
  | ReadOffset => on_chan (map_reply IntValue get_offset)
  | ReadExpositionTime => on_chan (map_reply FloatValue get_exposition_time)
  | ReadCurrent => on_chan (map_reply FloatValue get_current)
  | ReadRawCurrent => on_chan (map_reply NumValue get_raw_current)
  | WriteHighVoltage v => map_reply (fun _ => NoValue) (write_high_voltage v)
  | WriteRange r => map_reply (fun _ => NoValue) (write_range r)
  | WriteOffset o => map_reply (fun _ => NoValue) (write_offset o)
  | WriteExpositionTime t =>
      on_chan (map_reply (fun _ => NoValue) (write_exposition_time t))
  | Start => on_chan (map_reply (fun _ => NoValue) start)
  | Stop => on_chan (map_reply (fun _ => NoValue) stop)
  | Reset => map_reply (fun _ => NoValue) reset
  end.

End Chan.

(** ** Threads sharing the link

    [query] one statement at a time, for several threads on one host: the
    device server runs each request on a thread of its own, and [_lock] is
    the only thing that orders them.  A thread is at one of the points below;
    a schedule picks which thread moves next. *)

Module Threads.

(** Where a thread stands in [query]. *)
Inductive pc : Type :=
| Outside (last : option (result Z))                    (* not in [query]; what its last call gave *)
| AtAcquire (cmd : string) (de : bool) (et : float)     (* before [_lock.acquire()] *)
| AtWrite (cmd : string) (de : bool) (et : float)       (* before [_port.write] *)
| AtTimeout (cmd : string) (de : bool) (et : float)     (* before [_port.timeout = ...] *)
| AtRead (cmd : string) (de : bool)                     (* before [readline()] / [read()] *)
| AtRelease (r : result Z).                             (* in [finally] *)

(** What a thread did on the wire. *)
Inductive action : Type :=
| Wrote (cmd : string)
| WriteFailed
| Got (answer : string)
| ReadFailed.

Record sys : Type := mkSys {
  shared : Host;
  owner : option nat;            (* the thread that holds [_lock] *)
  pcs : nat -> pc;
  trace : list (nat * action)    (* the port calls so far, oldest first *)
}.

Definition upd (f : nat -> pc) (t : nat) (p : pc) : nat -> pc :=
  fun u => if Nat.eqb u t then p else f u.

(** The next statement of thread [t]; [None] when it cannot move (it is
    outside [query], or it waits for a lock another thread holds). *)
Definition step (t : nat) (s : sys) : option sys :=
  let h := shared s in
  match pcs s t with
  | Outside _ => None
  | AtAcquire cmd de et =>
      match owner s with
      | None =>
          Some (mkSys (lock_acquire h) (Some t) (upd (pcs s) t (AtWrite cmd de et))
                      (trace s))
      | Some u =>
          if Nat.eqb u t
          then Some (mkSys (lock_acquire h) (Some t)
                           (upd (pcs s) t (AtWrite cmd de et)) (trace s))
          else None
      end
  | AtWrite cmd de et =>
      match port_write cmd h with
      | (Ok _, h') =>
          Some (mkSys h' (owner s) (upd (pcs s) t (AtTimeout cmd de et))
                      (trace s ++ [(t, Wrote cmd)])%list)
      | (Raise _, h') =>
          Some (mkSys (host_set_state FAULT h') (owner s)
                      (upd (pcs s) t (AtRelease (Raise DevFailed)))
                      (trace s ++ [(t, WriteFailed)])%list)
      end
  | AtTimeout cmd de et =>
      Some (mkSys (set_port_timeout (command_timeout h + et)%float h) (owner s)
                  (upd (pcs s) t (AtRead cmd de)) (trace s))
  | AtRead cmd de =>
      match (if de then port_readline else port_read) h with
      | (Ok answer, h') =>
          Some (mkSys h' (owner s) (upd (pcs s) t (AtRelease (answer_result answer de)))
                      (trace s ++ [(t, Got answer)])%list)
      | (Raise _, h') =>
          Some (mkSys (host_set_state FAULT h') (owner s)
                      (upd (pcs s) t (AtRelease (Raise DevFailed)))
                      (trace s ++ [(t, ReadFailed)])%list)
      end
  | AtRelease r =>
      let h' := lock_release h in
      Some (mkSys h' (if Nat.eqb (lock_count h') 0 then None else owner s)
                  (upd (pcs s) t (Outside (Some r))) (trace s))
  end.

(** A schedule: a thread enters [query], or a thread runs one statement. *)
Inductive event : Type :=
| Call (t : nat) (cmd : string) (de : bool) (et : float)
| Step (t : nat).

Definition exec (s : sys) (e : event) : sys :=
  match e with
  | Call t cmd de et =>
      match pcs s t with
      | Outside _ =>
          mkSys (shared s) (owner s) (upd (pcs s) t (AtAcquire cmd de et)) (trace s)
      | _ => s
      end
  | Step t =>
      match step t s with
      | Some s' => s'
      | None => s
      end
  end.

Definition run (sched : list event) (s : sys) : sys := fold_left exec sched s.

(** No thread in [query], the lock free. *)
Definition init (h : Host) : sys :=
  mkSys (mkHost (command_timeout h) (port_timeout h) (wire h) (port_io h) 0
                (host_state h))
        None (fun _ => Outside None) [].

(** A thread between its [acquire] and its [release]. *)
Definition in_exchange (p : pc) : bool :=
  match p with
  | Outside _ | AtAcquire _ _ _ => false
  | _ => true
  end.

(** The port calls of whole exchanges, one after the other: a failed
    write, or a write followed by the same thread's read. *)
Inductive whole : list (nat * action) -> Prop :=
| whole_nil : whole []
| whole_write_failed tr t :
    whole tr -> whole (tr ++ [(t, WriteFailed)])%list
| whole_got tr t cmd answer :
    whole tr -> whole (tr ++ [(t, Wrote cmd); (t, Got answer)])%list
| whole_read_failed tr t cmd :
    whole tr -> whole (tr ++ [(t, Wrote cmd); (t, ReadFailed)])%list.

(** A thread that has written [cmd] and not yet read. *)
Definition awaits_answer (p : pc) (cmd : string) : Prop :=
  match p with
  | AtTimeout c _ _ | AtRead c _ => c = cmd
  | _ => False
  end.

(** Whole exchanges, then at most the write of the one exchange in
    progress, made by the thread that holds the lock. *)
Definition serialized (s : sys) : Prop :=
  (whole (trace s) /\ forall t cmd, ~ awaits_answer (pcs s t) cmd)
  \/ exists tr t cmd,
       trace s = (tr ++ [(t, Wrote cmd)])%list /\ whole tr
       /\ owner s = Some t /\ awaits_answer (pcs s t) cmd.


(** What holds in every state the threads can reach: the lock is held by
    exactly the thread that is inside an exchange, once; and the port calls
    so far are whole exchanges plus, at most, the write of the holder. *)
Record invariant (s : sys) : Prop := mkInvariant {
  inv_free : owner s = None -> lock_count (shared s) = 0%nat;
  inv_held : forall t, owner s = Some t ->
                       lock_count (shared s) = 1%nat /\ in_exchange (pcs s t) = true;
  inv_inside : forall t, in_exchange (pcs s t) = true -> owner s = Some t;
  inv_trace : serialized s
}.

(** Thread [t] alone: it enters [query] and runs its statements to the end
    (five at most). *)
Definition solo (t : nat) (cmd : string) (de : bool) (et : float) : list event :=
  [Call t cmd de et; Step t; Step t; Step t; Step t; Step t].

End Threads.

(** ** Vocabulary of the statements *)

(** The port hands [answer] to the next read: these bytes are what the
    device sends, or the device is silent and the read times out empty. *)
Definition delivers (h : Host) (answer : string) : Prop :=
  (port_io h = [] /\ answer = EmptyString)
  \/ exists io, port_io h = Received answer :: io.

(** A response line that carries [n]: a framing byte, the decimal digits
    and the line feed. *)
Definition framed (lead : ascii) (n : Z) : string :=
  String lead (str_int n ++ LF).

(** The value of a digit string grows by one digit. *)
Definition digit_step (a : Z) (c : ascii) : Z := 10 * a + (code c - 48).

(** The sum of doubles, added in order from [0.0]. *)
Definition fsum (xs : list float) : float := fold_left PrimFloat.add xs 0%float.

Definition zsum (xs : list Z) : Z := fold_left Z.add xs 0.

(** [to_amperes] over a list of raw counts. *)
Fixpoint amperes_of (r : RangeEnum) (raws : list Z) : result (list float) :=
  match raws with
  | [] => Ok []
  | raw :: raws' =>
      x <- Range.to_amperes r raw ;;
      xs <- amperes_of r raws' ;;
      Ok (x :: xs)
  end.


(** One more accepted count. *)
Definition accumulate (a : accum) (iter : Z) (sum : float) : accum :=
  mkAccum (PFloat sum) (result_raw a + iter) (cycles a + 1) (iter :: accepted a).

(** The loop variables agree with the counts accepted so far, on range
    [r]: their number, their sum, and the sum of their amperes. *)
Definition averaged (r : RangeEnum) (a : accum) : Prop :=
  cycles a = Z.of_nat (List.length (accepted a))
  /\ result_raw a = zsum (rev (accepted a))
  /\ ~ In (-1) (accepted a)
  /\ match accepted a with
     | [] => result_ a = PInt 0
     | _ :: _ =>
         exists amps,
           amperes_of r (rev (accepted a)) = Ok amps /\ result_ a = PFloat (fsum amps)
     end.

(** *** A bench: channel 3 on the first range, exposition 0.01 s *)

Definition bench_host (io : list port_event) : Host :=
  mkHost 0.5 0 [] io 0 ON.

Definition bench_channel : Channel :=
  mkChannel 3 0 RANGE_1 0 0.01 0 (PInt 0) false ON.

Definition bench (io : list port_event) : World :=
  mkWorld bench_channel (bench_host io).

(** A reading of the clock with no [stop] in between. *)
Definition quiet (t : float) : tick := mkTick t false.

(** The device answers [n] to a measure command. *)
Definition answers (n : Z) : port_event := Received (framed "006" n).

(** The channel as the end of a measurement without any count leaves it. *)
Definition nothing_measured (c : Channel) : Channel :=
  mkChannel (address c) (_high_voltage c) (_range c) (_offset c)
            (_exposition_time c) nan (PInt (-1)) false ON.

(** The command a measurement sends for the channel at [addr]. *)
Definition read_command (addr : Z) : string :=
  ":READ" ++ str_int addr ++ ":CURR?" ++ LF.

(** What [k] calls of the host's [measure] for one channel return, one
    after the other, oldest first. *)
Fixpoint readings (addr hint : Z) (k : nat) : M Host (list Z) :=
  match k with
  | O => ret []
  | S k' =>
      z <-- measure [addr; hint] ;
      zs <-- readings addr hint k' ;
      ret (z :: zs)
  end.

(** The readings that are counts: all but the sentinel [-1]. *)
Definition counted (rs : list Z) : list Z :=
  filter (fun z => negb (z =? -1)) rs.

(** * Properties *)

(** ** Floats *)

Section FloatOrder.

Local Open Scope float_scope.

Lemma min_exposition_SF :
  Prim2SF MIN_EXPOSITION_TIME = S754_finite false 4722366482869645 (-72).
Proof. vm_compute. reflexivity. Qed.

Lemma max_exposition_SF :
  Prim2SF MAX_EXPOSITION_TIME = S754_finite false 5937362789990400 (-36).
Proof. vm_compute. reflexivity. Qed.

Lemma zero_SF : Prim2SF 0 = S754_zero false.
Proof. vm_compute. reflexivity. Qed.

Lemma max_exposition_value : MAX_EXPOSITION_TIME = 86400.
Proof. vm_compute. reflexivity. Qed.

Lemma compare_cont_flip (p q : positive) :
  Pos.compare_cont Eq q p = CompOpp (Pos.compare_cont Eq p q).
Proof. exact (Pos.compare_antisym p q). Qed.

Lemma nan_SF (t : float) : is_nan t = true -> Prim2SF t = S754_nan.
Proof.
  unfold is_nan. rewrite eqb_spec. unfold SFeqb.
  destruct (Prim2SF t) as [s|s| |s m e]; cbn [SFcompare negb];
    try discriminate; try reflexivity.
  - destruct s; discriminate.
  - rewrite Z.compare_refl, Pos.compare_cont_refl. destruct s; discriminate.
Qed.

(** Below the lower limit is not above the upper one. *)
Lemma below_min_not_above_max (t : float) :
  (t <? MIN_EXPOSITION_TIME) = true -> (MAX_EXPOSITION_TIME <? t) = false.
Proof.
  rewrite !ltb_spec, min_exposition_SF, max_exposition_SF.
  unfold SFltb.
  destruct (Prim2SF t) as [s|s| |s m e]; cbn [SFcompare];
    try discriminate; try reflexivity.
  - destruct s; try discriminate; reflexivity.
  - destruct s; [reflexivity|].
    destruct (Z.compare_spec e (-72)), (Z.compare_spec (-36) e);
      try discriminate; try reflexivity; lia.
Qed.

Lemma nonpositive_below_min (t : float) :
  (t <=? 0) = true -> (t <? MIN_EXPOSITION_TIME) = true.
Proof.
  rewrite leb_spec, ltb_spec, min_exposition_SF, zero_SF.
  unfold SFleb, SFltb.
  destruct (Prim2SF t) as [s|s| |s m e]; cbn [SFcompare];
    try discriminate; try reflexivity.
  - destruct s; try discriminate; reflexivity.
  - destruct s; try discriminate; reflexivity.
Qed.

Lemma within_not_outside (t : float) :
  (MIN_EXPOSITION_TIME <=? t) = true -> (t <=? MAX_EXPOSITION_TIME) = true ->
  (t <? MIN_EXPOSITION_TIME) = false /\ (MAX_EXPOSITION_TIME <? t) = false.
Proof.
  rewrite !leb_spec, !ltb_spec, min_exposition_SF, max_exposition_SF.
  unfold SFleb, SFltb.
  destruct (Prim2SF t) as [s|s| |s m e]; cbn [SFcompare];
    try discriminate; try (split; reflexivity).
  - destruct s; try discriminate.
  - destruct s; try discriminate. intros H1 H2. split.
    + destruct (Z.compare_spec (-72) e), (Z.compare_spec e (-72));
        try discriminate; try reflexivity; try lia.
      rewrite (compare_cont_flip m 4722366482869645) in H1.
      destruct (Pos.compare_cont Eq m 4722366482869645); try discriminate; reflexivity.
    + destruct (Z.compare_spec (-36) e), (Z.compare_spec e (-36));
        try discriminate; try reflexivity; try lia.
      rewrite (compare_cont_flip m 5937362789990400).
      destruct (Pos.compare_cont Eq m 5937362789990400); try discriminate; reflexivity.
Qed.

End FloatOrder.

(** ** ValueClamp *)

Section ExpositionTime.

Local Open Scope float_scope.

Lemma nan_not_above (t x : float) : is_nan t = true -> (x <? t) = false.
Proof.
  intros H. rewrite ltb_spec, (nan_SF t H). unfold SFltb.
  destruct (Prim2SF x); reflexivity.
Qed.

Lemma nan_not_below (t x : float) : is_nan t = true -> (t <? x) = false.
Proof.
  intros H. rewrite ltb_spec, (nan_SF t H). reflexivity.
Qed.

(** C1 (as the code has it): [fit_exp_time_range] is a plain clamp.  It
    returns its argument unchanged when that is NaN or already inside
    [1e-6, 86400]; every other value is moved to the nearer limit, so a
    value that is zero, negative or minus infinity comes back as [1e-6]
    and plus infinity as [86400]. *)
Theorem fit_exp_time_range_clamps (t : float) :
  (is_nan t = true -> fit_exp_time_range t = t)
  /\ ((t <? MIN_EXPOSITION_TIME) = true ->
      fit_exp_time_range t = MIN_EXPOSITION_TIME)
  /\ ((MAX_EXPOSITION_TIME <? t) = true ->
      fit_exp_time_range t = MAX_EXPOSITION_TIME)
  /\ ((MIN_EXPOSITION_TIME <=? t) = true -> (t <=? MAX_EXPOSITION_TIME) = true ->
      fit_exp_time_range t = t)
  /\ ((t <=? 0) = true -> fit_exp_time_range t = MIN_EXPOSITION_TIME)
  /\ fit_exp_time_range (-1) = 1e-6
  /\ fit_exp_time_range neg_infinity = 1e-6
  /\ fit_exp_time_range infinity = 86400
  /\ fit_exp_time_range nan = nan
  /\ fit_exp_time_range 100000 = 86400
  /\ fit_exp_time_range 1e-9 = 1e-6.
Proof.
  assert (Hlow : (t <? MIN_EXPOSITION_TIME) = true ->
                 fit_exp_time_range t = MIN_EXPOSITION_TIME).
  { intros H. unfold fit_exp_time_range, py_min, py_max.
    rewrite (below_min_not_above_max t H), H. reflexivity. }
  repeat split; try (vm_compute; reflexivity).
  - intros H. unfold fit_exp_time_range, py_min, py_max.
    rewrite (nan_not_above t _ H). cbv iota.
    rewrite (nan_not_below t _ H). reflexivity.
  - exact Hlow.
  - intros H. unfold fit_exp_time_range, py_min, py_max. rewrite H.
    replace (MAX_EXPOSITION_TIME <? MIN_EXPOSITION_TIME) with false
      by (vm_compute; reflexivity).
    reflexivity.
  - intros H1 H2. destruct (within_not_outside t H1 H2) as [Ha Hb].
    unfold fit_exp_time_range, py_min, py_max. rewrite Hb, Ha. reflexivity.
  - intros H. apply Hlow, nonpositive_below_min, H.
Qed.

Lemma fit_exp_time_range_clamps_witness :
  fit_exp_time_range nan = nan
  /\ fit_exp_time_range (-1) = MIN_EXPOSITION_TIME
  /\ fit_exp_time_range 0 = MIN_EXPOSITION_TIME
  /\ fit_exp_time_range 100000 = MAX_EXPOSITION_TIME
  /\ fit_exp_time_range 0.01 = 0.01.
Proof.
  split; [| split; [| split; [| split]]].
  - apply (proj1 (fit_exp_time_range_clamps nan)). vm_compute. reflexivity.
  - apply (proj1 (proj2 (fit_exp_time_range_clamps (-1)))). vm_compute. reflexivity.
  - apply (proj1 (proj2 (proj2 (proj2 (proj2 (fit_exp_time_range_clamps 0)))))).
    vm_compute. reflexivity.
  - apply (proj1 (proj2 (proj2 (fit_exp_time_range_clamps 100000)))).
    vm_compute. reflexivity.
  - apply (proj1 (proj2 (proj2 (proj2 (fit_exp_time_range_clamps 0.01)))));
      vm_compute; reflexivity.
Defined.

(** C1 as the specification words it fails: [-1] is not positive and
    plus infinity is not finite, yet neither is returned unchanged. *)
Lemma fit_exp_time_range_changes_rejected_values :
  (-1 <=? 0) = true
  /\ fit_exp_time_range (-1) = 1e-6
  /\ (fit_exp_time_range (-1) =? -1) = false
  /\ is_infinity infinity = true
  /\ fit_exp_time_range infinity = 86400
  /\ (fit_exp_time_range infinity =? infinity) = false.
Proof. repeat split; vm_compute; reflexivity. Qed.

End ExpositionTime.

Lemma fit_voltage_range_bounds (v : Z) :
  MIN_VOLTAGE <= fit_voltage_range v <= MAX_VOLTAGE.
Proof. unfold fit_voltage_range, MIN_VOLTAGE, MAX_VOLTAGE. lia. Qed.


(** ** int to float on small integers *)

Lemma digits2_pos_shift (m k : positive) :
  digits2_pos (Pos.iter xO m k) = (digits2_pos m + k)%positive.
Proof.
  induction k using Pos.peano_ind.
  - cbn. lia.
  - rewrite Pos.iter_succ. cbn [digits2_pos]. rewrite IHk. lia.
Qed.

Lemma digits2_pos_bound (m : positive) :
  Zpos m < 2 ^ Zpos (digits2_pos m).
Proof.
  induction m; cbn [digits2_pos]; rewrite ?Pos2Z.inj_succ, ?Z.pow_succ_r by lia; try lia.
Qed.

Lemma digits2_pos_lower (m : positive) :
  2 ^ (Zpos (digits2_pos m) - 1) <= Zpos m.
Proof.
  induction m; cbn [digits2_pos]; rewrite ?Pos2Z.inj_succ.
  - replace (Z.succ (Zpos (digits2_pos m)) - 1) with (Z.succ (Zpos (digits2_pos m) - 1)) by lia.
    rewrite Z.pow_succ_r by lia. lia.
  - replace (Z.succ (Zpos (digits2_pos m)) - 1) with (Z.succ (Zpos (digits2_pos m) - 1)) by lia.
    rewrite Z.pow_succ_r by lia. lia.
  - cbn. lia.
Qed.

Lemma small_digits (m : positive) : Zpos m < 2 ^ 53 -> Zpos (digits2_pos m) <= 53.
Proof.
  intros H. pose proof (digits2_pos_lower m) as L.
  destruct (Z_le_gt_dec (Zpos (digits2_pos m)) 53) as [|G]; [assumption|].
  exfalso. assert (2 ^ 53 <= 2 ^ (Zpos (digits2_pos m) - 1)).
  { apply Z.pow_le_mono_r; lia. }
  lia.
Qed.

Lemma shr_fexp_canonical (m : positive) (e : Z) :
  fexp prec emax (Zpos (digits2_pos m) + e) = e ->
  shr_fexp prec emax (Zpos m) e loc_Exact
  = (Build_shr_record (Zpos m) false false, e).
Proof.
  intros H. unfold shr_fexp. cbn [Zdigits2]. rewrite H, Z.sub_diag. reflexivity.
Qed.

(** A mantissa already in normal form is its own rounding. *)
Lemma binary_round_aux_canonical (s : bool) (m : positive) (e : Z) :
  fexp prec emax (Zpos (digits2_pos m) + e) = e -> e <= emax - prec ->
  binary_round_aux prec emax s (Zpos m) e loc_Exact = S754_finite s m e.
Proof.
  intros H He. unfold binary_round_aux.
  rewrite (shr_fexp_canonical m e H).
  cbn [shr_m loc_of_shr_record round_nearest_even].
  rewrite (shr_fexp_canonical m e H). cbn [shr_m].
  apply Z.leb_le in He. rewrite He. reflexivity.
Qed.

Lemma binary_round_small (s : bool) (m : positive) :
  Zpos m < 2 ^ 53 ->
  exists m' e', binary_round prec emax s m 0 = S754_finite s m' e'.
Proof.
  intros H. apply small_digits in H.
  unfold binary_round.
  set (d := digits2_pos m) in *.
  assert (Hf : fexp prec emax (Zpos d + 0) = Zpos d - 53).
  { unfold fexp, SpecFloat.emin, prec, emax. lia. }
  rewrite Hf. unfold shl_align.
  destruct (Z.sub (Zpos d - 53) 0) as [|p|p] eqn:E; try lia.
  - exists m, 0. apply binary_round_aux_canonical.
    + fold d. rewrite Hf. lia.
    + unfold emax, prec. lia.
  - exists (Pos.iter xO m p), (Zpos d - 53). apply binary_round_aux_canonical.
    + rewrite digits2_pos_shift. fold d.
      unfold fexp, SpecFloat.emin, prec, emax. lia.
    + unfold emax, prec. lia.
Qed.

Lemma float_of_int_small (z : Z) :
  Z.abs z < 2 ^ 53 -> float_of_int z = Ok (int_to_float z).
Proof.
  intros H. unfold float_of_int, int_to_float, int_to_SF, binary_normalize.
  destruct z as [|m|m]; [reflexivity| |].
  - destruct (binary_round_small false m) as (m' & e' & ->); [lia|reflexivity].
  - destruct (binary_round_small true m) as (m' & e' & ->); [lia|reflexivity].
Qed.

(** ** RangeTable *)

Section Conversion.

Local Open Scope float_scope.

Lemma full_scale_float : int_to_float 262144000 = 262144000.
Proof. vm_compute. reflexivity. Qed.

(** The product in [max] is exact: it is the double of [10^(6+r)]. *)
Lemma max_exact (r : RangeEnum) :
  Range.max r = int_to_float (1000000 * 10 ^ ordinal r).
Proof. destruct r; vm_compute; reflexivity. Qed.

(** C8: [to_amperes] is [max(r) / 262144000 * raw * 1e-15] in double
    arithmetic, with [max(r)] the double of [1e6 * 10^r]; it returns for
    every raw count a double holds exactly; a zero count gives zero, the
    full-scale count on the first range gives [1e-9], and on every range
    the full-scale count gives [max(r) * 1e-15]. *)
Theorem to_amperes_formula (r : RangeEnum) (raw : Z) :
  Range.to_amperes r raw
    = (x <- float_of_int raw ;; Ok (Range.max r / 262144000 * x * 1e-15))
  /\ (Z.abs raw < 2 ^ 53 ->
      Range.to_amperes r raw
        = Ok (Range.max r / 262144000 * int_to_float raw * 1e-15))
  /\ Range.max r = int_to_float (1000000 * 10 ^ ordinal r)
  /\ Range.to_amperes RANGE_1 0 = Ok 0
  /\ Range.to_amperes RANGE_1 262144000 = Ok 1e-9
  /\ Range.to_amperes r 262144000 = Ok (Range.max r * 1e-15).
Proof.
  assert (E : Range.to_amperes r raw
    = (x <- float_of_int raw ;; Ok (Range.max r / 262144000 * x * 1e-15))).
  { unfold Range.to_amperes. rewrite full_scale_float. reflexivity. }
  split; [exact E|].
  split; [intros H; rewrite E, (float_of_int_small raw H); reflexivity|].
  split; [apply max_exact|].
  split; [vm_compute; reflexivity|].
  split; [vm_compute; reflexivity|].
  destruct r; vm_compute; reflexivity.
Qed.

Lemma to_amperes_formula_witness :
  Range.to_amperes RANGE_3 131072000
    = Ok (Range.max RANGE_3 / 262144000 * int_to_float 131072000 * 1e-15).
Proof.
  apply (proj1 (proj2 (to_amperes_formula RANGE_3 131072000))).
  vm_compute. reflexivity.
Defined.

End Conversion.

(** ** Text *)

Lemma code_digit_char (d : Z) : 0 <= d < 10 -> code (digit_char d) = 48 + d.
Proof.
  intros H. unfold code, digit_char.
  rewrite N_ascii_embedding by lia. lia.
Qed.

Lemma is_digit_digit_char (d : Z) : 0 <= d < 10 -> is_digit (digit_char d) = true.
Proof.
  intros H. unfold is_digit. rewrite (code_digit_char d H).
  apply andb_true_intro. split; apply Z.leb_le; lia.
Qed.

Lemma digit_not_space (c : ascii) : is_digit c = true -> is_space c = false.
Proof.
  unfold is_digit, is_space. intros H.
  apply andb_prop in H. destruct H as [H1 H2].
  apply Z.leb_le in H1. apply Z.leb_le in H2.
  apply orb_false_intro.
  - apply andb_false_intro2. apply Z.leb_gt. lia.
  - apply Z.eqb_neq. lia.
Qed.

Lemma digit_not_sign (c : ascii) :
  is_digit c = true -> Ascii.eqb c "-" = false /\ Ascii.eqb c "+" = false.
Proof.
  intros H. split.
  - destruct (Ascii.eqb_spec c "-") as [->|]; [discriminate H|reflexivity].
  - destruct (Ascii.eqb_spec c "+") as [->|]; [discriminate H|reflexivity].
Qed.

Lemma digit_not_underscore (c : ascii) : is_digit c = true -> Ascii.eqb c "_" = false.
Proof.
  intros H. destruct (Ascii.eqb_spec c "_") as [->|]; [discriminate H|reflexivity].
Qed.

(** The digits [dec_digits] writes, all at once. *)
Lemma dec_digits_all_digits (fuel : nat) : forall n acc,
  0 <= n ->
  Forall (fun c => is_digit c = true) (list_ascii_of_string acc) ->
  Forall (fun c => is_digit c = true) (list_ascii_of_string (dec_digits fuel n acc)).
Proof.
  induction fuel as [|fuel IH]; intros n acc Hn Hacc; cbn [dec_digits]; [assumption|].
  assert (Hd : is_digit (digit_char (n mod 10)) = true).
  { apply is_digit_digit_char. apply Z.mod_pos_bound. lia. }
  destruct (n <? 10).
  - cbn. constructor; assumption.
  - apply IH.
    + apply Z.div_pos; lia.
    + cbn. constructor; assumption.
Qed.

Lemma dec_digits_value (fuel : nat) : forall n acc,
  0 <= n < 2 ^ Z.of_nat fuel ->
  fold_left digit_step (list_ascii_of_string (dec_digits fuel n acc)) 0
  = fold_left digit_step (list_ascii_of_string acc) n.
Proof.
  induction fuel as [|fuel IH]; intros n acc Hn; cbn [dec_digits].
  - cbn in Hn. replace n with 0 by lia. reflexivity.
  - assert (Hm : 0 <= n mod 10 < 10) by (apply Z.mod_pos_bound; lia).
    destruct (Z.ltb_spec n 10) as [Hlt|Hge].
    + cbn [list_ascii_of_string fold_left]. unfold digit_step at 2.
      rewrite (code_digit_char _ Hm), Z.mod_small by lia.
      f_equal. lia.
    + rewrite IH.
      * cbn [list_ascii_of_string fold_left]. unfold digit_step at 2.
        rewrite (code_digit_char _ Hm). f_equal.
        pose proof (Z.div_mod n 10). lia.
      * rewrite Nat2Z.inj_succ, Z.pow_succ_r in Hn by lia.
        split; [apply Z.div_pos; lia|].
        apply Z.div_lt_upper_bound; lia.
Qed.

Lemma dec_digits_length (fuel : nat) : forall n acc,
  (String.length (dec_digits fuel n acc) <= fuel + String.length acc)%nat.
Proof.
  induction fuel as [|fuel IH]; intros n acc; cbn [dec_digits]; [lia|].
  destruct (n <? 10).
  - cbn. lia.
  - etransitivity; [apply IH|]. cbn. lia.
Qed.

Lemma dec_digits_nonempty (fuel : nat) (n : Z) (acc : string) :
  dec_digits (S fuel) n acc <> EmptyString.
Proof.
  cbn [dec_digits]. destruct (n <? 10); [discriminate|].
  generalize (n / 10). generalize (digit_char (n mod 10)).
  induction fuel as [|fuel IH] in acc |- *; intros a m; cbn [dec_digits]; [discriminate|].
  destruct (m <? 10); [discriminate|]. apply IH.
Qed.

Lemma length_list_ascii (s : string) :
  List.length (list_ascii_of_string s) = String.length s.
Proof. induction s; cbn; congruence. Qed.

Lemma parse_digits_all (ds : list ascii) : forall acc seen b,
  Forall (fun c => is_digit c = true) ds -> ds <> [] ->
  parse_digits ds acc seen b
  = Some (fold_left digit_step ds acc, (seen + List.length ds)%nat).
Proof.
  induction ds as [|c ds IH]; intros acc seen b Hall Hne; [congruence|].
  inversion Hall as [|? ? Hc Hds]; subst.
  cbn [parse_digits]. rewrite Hc.
  destruct ds as [|c' ds'].
  - cbn. do 2 f_equal. lia.
  - rewrite IH by (assumption || discriminate).
    cbn [fold_left List.length]. do 2 f_equal. lia.
Qed.

Lemma lstrip_keeps (c : ascii) (cs : list ascii) :
  is_space c = false -> lstrip (c :: cs) = c :: cs.
Proof. intros H. cbn. rewrite H. reflexivity. Qed.

Lemma strip_keeps (cs : list ascii) (c l : ascii) (mid : list ascii) :
  cs = c :: mid -> rev cs = l :: rev (removelast cs) ->
  is_space c = false -> is_space l = false -> strip cs = cs.
Proof.
  intros -> Hr Hc Hl. unfold strip.
  rewrite (lstrip_keeps c mid Hc), Hr, (lstrip_keeps l _ Hl), <- Hr.
  apply rev_involutive.
Qed.

Lemma rev_head_last (cs : list ascii) (d : ascii) :
  cs <> [] -> rev cs = last cs d :: rev (removelast cs).
Proof.
  intros H. rewrite (app_removelast_last d H) at 1.
  rewrite rev_app_distr. reflexivity.
Qed.

Lemma last_in_forall (P : ascii -> Prop) (cs : list ascii) (d : ascii) :
  Forall P cs -> cs <> [] -> P (last cs d).
Proof.
  intros HF Hne. rewrite Forall_forall in HF. apply HF.
  rewrite (app_removelast_last d Hne) at 2. apply in_or_app. right. left. reflexivity.
Qed.

Lemma strip_digits (pre ds : list ascii) :
  Forall (fun c => is_digit c = true) ds -> ds <> [] ->
  Forall (fun c => is_space c = false) pre ->
  strip (pre ++ ds) = (pre ++ ds)%list.
Proof.
  intros Hds Hne Hpre.
  assert (Hall : Forall (fun c => is_space c = false) (pre ++ ds)).
  { apply Forall_app. split; [assumption|].
    eapply Forall_impl; [|exact Hds]. apply digit_not_space. }
  assert (Hne' : (pre ++ ds)%list <> []).
  { destruct pre; [assumption|discriminate]. }
  destruct (pre ++ ds)%list as [|c mid] eqn:E; [congruence|].
  eapply (strip_keeps _ c (last (c :: mid) c) mid eq_refl).
  - apply rev_head_last. discriminate.
  - inversion Hall; assumption.
  - apply (last_in_forall _ _ c Hall). discriminate.
Qed.

Lemma parse_int_str_nat (n : Z) :
  0 <= n < 2 ^ 4300 -> parse_int (list_ascii_of_string (str_nat n)) = Some n.
Proof.
  intros Hn. unfold parse_int, str_nat.
  set (fuel := Z.to_nat (Z.log2 n)).
  assert (Hfuel : 0 <= n < 2 ^ Z.of_nat (S fuel)).
  { split; [lia|]. destruct (Z.eq_dec n 0) as [->|Hnz].
    - apply Z.pow_pos_nonneg; lia.
    - unfold fuel. rewrite Nat2Z.inj_succ, Z2Nat.id by apply Z.log2_nonneg.
      apply Z.log2_spec. lia. }
  assert (Hlog : (S fuel <= int_max_str_digits)%nat).
  { unfold fuel, int_max_str_digits.
    assert (Z.log2 n < 4300).
    { destruct (Z.eq_dec n 0) as [->|Hnz]; [cbn; lia|].
      apply Z.log2_lt_pow2; lia. }
    pose proof (Z.log2_nonneg n). lia. }
  set (s := dec_digits (S fuel) n EmptyString).
  assert (Hall : Forall (fun c => is_digit c = true) (list_ascii_of_string s)).
  { apply dec_digits_all_digits; [lia|constructor]. }
  assert (Hne : list_ascii_of_string s <> []).
  { intros E. apply (dec_digits_nonempty fuel n EmptyString). fold s.
    destruct s; [reflexivity|discriminate E]. }
  pose proof (strip_digits [] _ Hall Hne (Forall_nil _)) as Hs.
  cbn [app] in Hs. rewrite Hs. clear Hs.
  destruct (list_ascii_of_string s) as [|c cs] eqn:E; [congruence|].
  inversion Hall as [|? ? Hc _]; subst.
  destruct (digit_not_sign c Hc) as [-> ->].
  rewrite (parse_digits_all (c :: cs) 0 0 false Hall Hne).
  rewrite <- E, length_list_ascii.
  assert (Hlen : (0 + String.length s <=? int_max_str_digits)%nat = true).
  { apply Nat.leb_le. pose proof (dec_digits_length (S fuel) n EmptyString) as L.
    fold s in L. cbn [String.length] in L. lia. }
  rewrite Hlen. f_equal. unfold s. rewrite (dec_digits_value (S fuel) n EmptyString Hfuel).
  reflexivity.
Qed.

Lemma parse_int_minus_str_nat (n : Z) :
  0 <= n < 2 ^ 4300 ->
  parse_int ("-"%char :: list_ascii_of_string (str_nat n)) = Some (- n).
Proof.
  intros Hn. unfold parse_int, str_nat.
  set (fuel := Z.to_nat (Z.log2 n)).
  assert (Hfuel : 0 <= n < 2 ^ Z.of_nat (S fuel)).
  { split; [lia|]. destruct (Z.eq_dec n 0) as [->|Hnz].
    - apply Z.pow_pos_nonneg; lia.
    - unfold fuel. rewrite Nat2Z.inj_succ, Z2Nat.id by apply Z.log2_nonneg.
      apply Z.log2_spec. lia. }
  assert (Hlog : (S fuel <= int_max_str_digits)%nat).
  { unfold fuel, int_max_str_digits.
    assert (Z.log2 n < 4300).
    { destruct (Z.eq_dec n 0) as [->|Hnz]; [cbn; lia|].
      apply Z.log2_lt_pow2; lia. }
    pose proof (Z.log2_nonneg n). lia. }
  set (s := dec_digits (S fuel) n EmptyString).
  assert (Hall : Forall (fun c => is_digit c = true) (list_ascii_of_string s)).
  { apply dec_digits_all_digits; [lia|constructor]. }
  assert (Hne : list_ascii_of_string s <> []).
  { intros E. apply (dec_digits_nonempty fuel n EmptyString). fold s.
    destruct s; [reflexivity|discriminate E]. }
  change ("-"%char :: list_ascii_of_string s) with (["-"%char] ++ list_ascii_of_string s)%list.
  rewrite (strip_digits ["-"%char] _ Hall Hne) by (constructor; [reflexivity|constructor]).
  cbn [app]. rewrite Ascii.eqb_refl.
  rewrite (parse_digits_all _ 0 0 false Hall Hne).
  rewrite length_list_ascii.
  assert (Hlen : (0 + String.length s <=? int_max_str_digits)%nat = true).
  { apply Nat.leb_le. pose proof (dec_digits_length (S fuel) n EmptyString) as L.
    fold s in L. cbn [String.length] in L. lia. }
  rewrite Hlen. do 2 f_equal. unfold s.
  rewrite (dec_digits_value (S fuel) n EmptyString Hfuel). reflexivity.
Qed.

(** Reading back what [str.format] prints. *)
Lemma int_of_bytes_str_int (n : Z) :
  Z.abs n < 2 ^ 4300 -> int_of_bytes (str_int n) = Ok n.
Proof.
  intros Hn. unfold int_of_bytes, str_int.
  destruct (Z.ltb_spec n 0) as [Hneg|Hpos].
  - cbn [list_ascii_of_string]. rewrite parse_int_minus_str_nat by lia.
    f_equal. lia.
  - rewrite parse_int_str_nat by lia. reflexivity.
Qed.

Lemma substring_prefix (s t : string) :
  substring 0 (String.length s) (s ++ t) = s.
Proof.
  induction s as [|c s IH]; cbn.
  - destruct t; reflexivity.
  - rewrite IH. reflexivity.
Qed.

Lemma length_append (s t : string) :
  String.length (s ++ t) = (String.length s + String.length t)%nat.
Proof. induction s; cbn; congruence. Qed.

Lemma slice_framed (lead : ascii) (n : Z) : slice_1_m1 (framed lead n) = str_int n.
Proof.
  unfold slice_1_m1, framed. cbn [String.length substring].
  rewrite length_append. cbn [String.length LF].
  replace (S (String.length (str_int n) + 1) - 2)%nat
    with (String.length (str_int n)) by lia.
  apply substring_prefix.
Qed.

Lemma str_int_nonempty (n : Z) : (1 <= String.length (str_int n))%nat.
Proof.
  unfold str_int, str_nat. destruct (n <? 0); cbn [String.length]; [lia|].
  pose proof (dec_digits_nonempty (Z.to_nat (Z.log2 n)) n EmptyString) as H.
  destruct (dec_digits _ n EmptyString); [congruence|cbn; lia].
Qed.

(** ** The exchange *)

Ltac unfold_query :=
  unfold query, try_finally, try_except, query_body, bindM, modify, gets, ret,
    lift, raise, port_readline, port_read, port_write;
  cbn -[rejected int_of_bytes slice_1_m1 PrimFloat.add app].

(** The port delivers [answer]: the command is on the wire, the answer is
    judged, and the lock is back where it was. *)
Lemma query_received (cmd : string) (de : bool) (et : float) (h : Host)
    (answer : string) (io : list port_event) :
  port_io h = Received answer :: io ->
  query cmd de et h
  = (answer_result answer de,
     mkHost (command_timeout h) (command_timeout h + et)%float
            (wire h ++ [cmd]) io (lock_count h) (host_state h)).
Proof.
  destruct h as [ct pt w pio lc hs]. cbn [port_io]. intros ->.
  unfold answer_result. destruct de; unfold_query.
  - destruct (rejected answer true); [reflexivity|].
    unfold int_of_bytes.
    destruct (parse_int (list_ascii_of_string (slice_1_m1 answer))); reflexivity.
  - destruct (rejected answer false); reflexivity.
Qed.

Lemma query_silent (cmd : string) (de : bool) (et : float) (h : Host) :
  port_io h = [] ->
  query cmd de et h
  = (Ok (-1),
     mkHost (command_timeout h) (command_timeout h + et)%float
            (wire h ++ [cmd]) [] (lock_count h) (host_state h)).
Proof.
  destruct h as [ct pt w pio lc hs]. cbn [port_io]. intros ->.
  destruct de; unfold_query; reflexivity.
Qed.

(** A failed write: nothing reaches the wire, the host goes to FAULT and
    the caller gets [DevFailed]. *)
Lemma query_write_error (cmd : string) (de : bool) (et : float) (h : Host)
    (io : list port_event) :
  port_io h = WriteError :: io ->
  query cmd de et h
  = (Raise DevFailed,
     mkHost (command_timeout h) (port_timeout h) (wire h) io (lock_count h) FAULT).
Proof.
  destruct h as [ct pt w pio lc hs]. cbn [port_io]. intros ->.
  unfold_query. reflexivity.
Qed.

Lemma query_read_error (cmd : string) (de : bool) (et : float) (h : Host)
    (io : list port_event) :
  port_io h = ReadError :: io ->
  query cmd de et h
  = (Raise DevFailed,
     mkHost (command_timeout h) (command_timeout h + et)%float
            (wire h ++ [cmd]) io (lock_count h) FAULT).
Proof.
  destruct h as [ct pt w pio lc hs]. cbn [port_io]. intros ->.
  destruct de; unfold_query; reflexivity.
Qed.

(** [query] never lets a [SerialException] out. *)
Lemma query_no_serial_exception (cmd : string) (de : bool) (et : float) (h : Host) :
  fst (query cmd de et h) <> Raise SerialException.
Proof.
  destruct (port_io h) as [|[| |answer] io] eqn:E.
  - rewrite (query_silent _ _ _ _ E). discriminate.
  - rewrite (query_write_error _ _ _ _ _ E). discriminate.
  - rewrite (query_read_error _ _ _ _ _ E). discriminate.
  - rewrite (query_received _ _ _ _ _ _ E). cbn [fst]. unfold answer_result.
    destruct (rejected answer de); [discriminate|].
    destruct de; [|discriminate].
    unfold int_of_bytes. destruct (parse_int _); discriminate.
Qed.

(** On every way out the lock count is what it was at the call. *)
Lemma query_restores_lock (cmd : string) (de : bool) (et : float) (h : Host) :
  lock_count (snd (query cmd de et h)) = lock_count h.
Proof.
  destruct (port_io h) as [|[| |answer] io] eqn:E.
  - rewrite (query_silent _ _ _ _ E). reflexivity.
  - rewrite (query_write_error _ _ _ _ _ E). reflexivity.
  - rewrite (query_read_error _ _ _ _ _ E). reflexivity.
  - rewrite (query_received _ _ _ _ _ _ E). reflexivity.
Qed.

Lemma rejected_true_iff (answer : string) (de : bool) :
  rejected answer de = true <->
  ((de = true /\ (String.length answer < 3)%nat)
   \/ (de = false /\ answer <> ACK)
   \/ answer = EmptyString).
Proof.
  unfold rejected. split.
  - intros H. apply orb_prop in H. destruct H as [H|H].
    + apply orb_prop in H. destruct H as [H|H].
      * apply andb_prop in H. destruct H as [H1 H2]. left. split; [assumption|].
        apply Z.ltb_lt in H1. lia.
      * apply andb_prop in H. destruct H as [H1 H2]. right. left.
        destruct de; [discriminate|]. split; [reflexivity|].
        apply negb_true_iff in H1. apply String.eqb_neq. assumption.
    + right. right. apply Nat.eqb_eq in H. destruct answer; [reflexivity|discriminate].
  - intros [[-> H]|[[-> H]| ->]].
    + assert (E : (Z.of_nat (String.length answer) <? 3) = true) by (apply Z.ltb_lt; lia).
      rewrite E. reflexivity.
    + apply String.eqb_neq in H. rewrite H. cbn. rewrite orb_true_r. reflexivity.
    + cbn. apply orb_true_r.
Qed.

Lemma framed_length (lead : ascii) (n : Z) : (3 <= String.length (framed lead n))%nat.
Proof.
  unfold framed. cbn [String.length]. rewrite length_append.
  pose proof (str_int_nonempty n). cbn [String.length LF]. lia.
Qed.

(** C2: when the port hands over a response, [query] returns the sentinel
    [-1] if data is expected and the response has fewer than three bytes,
    or no data is expected and the response is not the single byte [0x06],
    or the response is empty; otherwise it returns what [int] reads between
    the first and the last byte when data is expected (for a line that
    frames the decimal form of [n], the integer [n]), and [0] when no data
    is expected. *)
Theorem query_returns (raw_command : string) (data_expected : bool)
    (execution_time : float) (h : Host) (answer : string) :
  delivers h answer ->
  (((data_expected = true /\ (String.length answer < 3)%nat)
    \/ (data_expected = false /\ answer <> ACK)
    \/ answer = EmptyString) ->
   fst (query raw_command data_expected execution_time h) = Ok (-1))
  /\ (data_expected = true -> (3 <= String.length answer)%nat ->
      fst (query raw_command data_expected execution_time h)
      = int_of_bytes (slice_1_m1 answer))
  /\ (data_expected = true ->
      forall lead n, answer = framed lead n -> Z.abs n < 2 ^ 4300 ->
      fst (query raw_command data_expected execution_time h) = Ok n)
  /\ (data_expected = false -> answer = ACK ->
      fst (query raw_command data_expected execution_time h) = Ok 0).
Proof.
  intros Hd.
  assert (Hr : fst (query raw_command data_expected execution_time h)
               = answer_result answer data_expected).
  { destruct Hd as [[Hio ->]|[io Hio]].
    - rewrite (query_silent _ _ _ _ Hio). unfold answer_result.
      destruct data_expected; reflexivity.
    - rewrite (query_received _ _ _ _ _ _ Hio). reflexivity. }
  rewrite Hr. unfold answer_result.
  assert (Hlong : data_expected = true -> (3 <= String.length answer)%nat ->
                  rejected answer data_expected = false).
  { intros -> Hlen. destruct (rejected answer true) eqn:E; [|reflexivity].
    apply rejected_true_iff in E. destruct E as [[_ E]|[[E _]| ->]].
    - lia.
    - discriminate.
    - cbn in Hlen. lia. }
  split; [|split; [|split]].
  - intros H. apply rejected_true_iff in H. rewrite H. reflexivity.
  - intros Hde Hlen. rewrite (Hlong Hde Hlen), Hde. reflexivity.
  - intros Hde lead n -> Hn.
    rewrite (Hlong Hde (framed_length lead n)), Hde, slice_framed.
    apply int_of_bytes_str_int, Hn.
  - intros -> ->. reflexivity.
Qed.

Lemma query_returns_witness :
  fst (query (":READ3:CURR?" ++ LF) true 0.01
         (mkHost 0.5 0 [] [Received (framed "006" 131072000)] 0 ON))
  = Ok 131072000
  /\ fst (query (":READ3:CURR?" ++ LF) true 0.01
            (mkHost 0.5 0 [] [Received (ACK ++ LF)] 0 ON))
     = Ok (-1)
  /\ fst (query ("*RST3" ++ LF) false 0
            (mkHost 0.5 0 [] [Received ACK] 0 ON))
     = Ok 0.
Proof.
  split; [|split].
  - apply (proj1 (proj2 (proj2
      (query_returns (":READ3:CURR?" ++ LF) true 0.01
         (mkHost 0.5 0 [] [Received (framed "006" 131072000)] 0 ON)
         (framed "006" 131072000)
         (or_intror (ex_intro _ [] eq_refl)))))
      eq_refl "006"%char 131072000 eq_refl).
    vm_compute. reflexivity.
  - apply (proj1
      (query_returns (":READ3:CURR?" ++ LF) true 0.01
         (mkHost 0.5 0 [] [Received (ACK ++ LF)] 0 ON)
         (ACK ++ LF)
         (or_intror (ex_intro _ [] eq_refl)))).
    left. split; [reflexivity|]. vm_compute. lia.
  - apply (proj2 (proj2 (proj2
      (query_returns ("*RST3" ++ LF) false 0
         (mkHost 0.5 0 [] [Received ACK] 0 ON)
         ACK
         (or_intror (ex_intro _ [] eq_refl)))))); reflexivity.
Defined.

(** What [int] cannot read is not returned: [ValueError] leaves [query]. *)
Lemma query_unreadable_answer :
  fst (query (":READ3:CURR?" ++ LF) true 0
         (mkHost 0.5 0 [] [Received "abc"] 0 ON))
  = Raise ValueError.
Proof. vm_compute. reflexivity. Qed.

(** ** The commands of the host *)

Lemma valid_channel_iff (channel_id : Z) :
  valid_channel channel_id = true <-> 0 <= channel_id <= 15.
Proof.
  unfold valid_channel, MAX_CHANNELS. rewrite andb_true_iff, !Z.leb_le. reflexivity.
Qed.

Lemma invalid_channel (channel_id : Z) :
  channel_id < 0 \/ 15 < channel_id -> valid_channel channel_id = false.
Proof.
  intros H. destruct (valid_channel channel_id) eqn:E; [|reflexivity].
  apply valid_channel_iff in E. lia.
Qed.

(** What a command leaves on the wire when the port takes the write. *)
Lemma query_wire (cmd : string) (de : bool) (et : float) (h : Host) :
  (forall io, port_io h <> WriteError :: io) ->
  wire (snd (query cmd de et h)) = (wire h ++ [cmd])%list.
Proof.
  intros Hw. destruct (port_io h) as [|[| |answer] io] eqn:E.
  - rewrite (query_silent _ _ _ _ E). reflexivity.
  - exfalso. exact (Hw io eq_refl).
  - rewrite (query_read_error _ _ _ _ _ E). reflexivity.
  - rewrite (query_received _ _ _ _ _ _ E). reflexivity.
Qed.

(** C5 (as the code has it): an address outside [0..15] stops the four
    commands that return a value, which give back [-1], and the two guarded
    writes, which return nothing; in each case the host is left as it was,
    so no command is sent. *)
Theorem invalid_address_is_refused (channel_id : Z) (h : Host) :
  channel_id < 0 \/ 15 < channel_id ->
  read_voltage channel_id h = (Ok (-1), h)
  /\ read_range channel_id h = (Ok (-1), h)
  /\ read_offset channel_id h = (Ok (-1), h)
  /\ (forall hint, measure [channel_id; hint] h = (Ok (-1), h))
  /\ (forall volts, write_voltage [channel_id; volts] h = (Ok tt, h))
  /\ (forall offset, write_offset [channel_id; offset] h = (Ok tt, h)).
Proof.
  intros H. apply invalid_channel in H.
  unfold read_voltage, read_range, read_offset, measure, write_voltage, write_offset.
  rewrite H. cbn [andb]. repeat split.
Qed.

Lemma invalid_address_is_refused_witness :
  read_voltage 16 (mkHost 0.5 0 [] [Received ACK] 0 ON)
  = (Ok (-1), mkHost 0.5 0 [] [Received ACK] 0 ON)
  /\ measure [-1; 10000] (mkHost 0.5 0 [] [Received ACK] 0 ON)
     = (Ok (-1), mkHost 0.5 0 [] [Received ACK] 0 ON).
Proof.
  split.
  - apply (proj1 (invalid_address_is_refused 16
                    (mkHost 0.5 0 [] [Received ACK] 0 ON) (or_intror eq_refl))).
  - apply (proj1 (proj2 (proj2 (proj2
             (invalid_address_is_refused (-1)
                (mkHost 0.5 0 [] [Received ACK] 0 ON) (or_introl eq_refl)))))).
Defined.

(** C5 as the specification words it fails: [reset] and [write_range] put
    their command on the wire for address 16, and a guarded write has no
    sentinel to return. *)
Lemma unchecked_address_reaches_the_wire :
  reset 16 (mkHost 0.5 0 [] [Received ACK] 0 ON)
  = (Ok tt, mkHost 0.5 0.5 ["*RST16" ++ LF] [] 0 ON)
  /\ write_range [16; 1] (mkHost 0.5 0 [] [Received ACK] 0 ON)
     = (Ok tt, mkHost 0.5 0.5 [":CONF16:CURR:RANG 1" ++ LF] [] 0 ON)
  /\ write_voltage [16; 100] (mkHost 0.5 0 [] [Received ACK] 0 ON)
     = (Ok tt, mkHost 0.5 0 [] [Received ACK] 0 ON).
Proof. repeat split; vm_compute; reflexivity. Qed.

(** C10: [write_offset] sends its command exactly when it is given two
    values, an address in [0..15] and an offset in [0..98]; any other call,
    among them offset 99 and an address out of range, returns nothing and
    leaves the host as it was. *)
Theorem write_offset_gate (data : list Z) (h : Host) :
  (forall channel_id offset,
      data = [channel_id; offset] -> 0 <= channel_id <= 15 -> 0 <= offset < 99 ->
      (forall io, port_io h <> WriteError :: io) ->
      wire (snd (write_offset data h))
      = (wire h ++ [(":CONF" ++ str_int channel_id ++ ":CURR:OFFS "
                       ++ str_int offset ++ LF)%string])%list)
  /\ (~ (exists channel_id offset,
            data = [channel_id; offset] /\ 0 <= channel_id <= 15 /\ 0 <= offset < 99) ->
      write_offset data h = (Ok tt, h))
  /\ (forall channel_id, write_offset [channel_id; 99] h = (Ok tt, h))
  /\ (forall channel_id offset,
         channel_id < 0 \/ 15 < channel_id ->
         write_offset [channel_id; offset] h = (Ok tt, h)).
Proof.
  assert (Hgate : forall c o,
             (valid_channel c && ((MIN_OFFSET <=? o) && (o <? MAX_OFFSET))) = true
             <-> (0 <= c <= 15 /\ 0 <= o < 99)).
  { intros c o. unfold MIN_OFFSET, MAX_OFFSET.
    rewrite !andb_true_iff, valid_channel_iff, Z.leb_le, Z.ltb_lt. lia. }
  split; [|split; [|split]].
  - intros c o -> Hc Ho Hw. unfold write_offset.
    rewrite (proj2 (Hgate c o) (conj Hc Ho)).
    unfold bindM, ret.
    pose proof (query_wire (":CONF" ++ str_int c ++ ":CURR:OFFS " ++ str_int o ++ LF)
                  false 0 h Hw) as Q.
    destruct (query _ false 0%float h) as [[a|e] h']; exact Q.
  - intros Hno. unfold write_offset.
    destruct data as [|c [|o [|x rest]]]; try reflexivity.
    destruct (valid_channel c && ((MIN_OFFSET <=? o) && (o <? MAX_OFFSET))) eqn:E;
      [|reflexivity].
    exfalso. apply Hno. exists c, o. split; [reflexivity|]. apply Hgate, E.
  - intros c. unfold write_offset.
    replace (valid_channel c && ((MIN_OFFSET <=? 99) && (99 <? MAX_OFFSET))) with false;
      [reflexivity|].
    cbn. rewrite andb_false_r. reflexivity.
  - intros c o Hc. unfold write_offset. rewrite (invalid_channel c Hc). reflexivity.
Qed.

Lemma write_offset_gate_witness :
  wire (snd (write_offset [3; 98] (mkHost 0.5 0 [] [Received ACK] 0 ON)))
  = [":CONF3:CURR:OFFS 98" ++ LF]
  /\ write_offset [3; 99] (mkHost 0.5 0 [] [Received ACK] 0 ON)
     = (Ok tt, mkHost 0.5 0 [] [Received ACK] 0 ON)
  /\ write_offset [16; 50] (mkHost 0.5 0 [] [Received ACK] 0 ON)
     = (Ok tt, mkHost 0.5 0 [] [Received ACK] 0 ON).
Proof.
  split; [|split].
  - apply (proj1 (write_offset_gate [3; 98] (mkHost 0.5 0 [] [Received ACK] 0 ON))
             3 98 eq_refl).
    + lia.
    + lia.
    + intros io. discriminate.
  - apply (proj1 (proj2 (proj2
             (write_offset_gate [3; 99] (mkHost 0.5 0 [] [Received ACK] 0 ON))))).
  - apply (proj2 (proj2 (proj2
             (write_offset_gate [16; 50] (mkHost 0.5 0 [] [Received ACK] 0 ON))))).
    right. lia.
Defined.

(** ** The voltage setter *)

(** Outside the limits of the attribute the setter would clamp only the
    value it stores: it hands the request as given to [write_voltage],
    whose own range test drops it, and nothing is sent. *)
Lemma write_high_voltage_out_of_range (w : World) (volts : Z) :
  state (chan w) = ON -> volts < 0 \/ 1700 < volts ->
  write_high_voltage volts w
  = (Ok tt, mkWorld (set_high_voltage (fit_voltage_range volts) (chan w)) (host w)).
Proof.
  intros Hst Hv. destruct w as [c h]. cbn [chan host] in *.
  unfold write_high_voltage, bindM, on_chan, gets, modify, proxy, write_voltage.
  cbn [chan host fst snd]. rewrite Hst. cbn [DevState_eqb chan host address set_high_voltage].
  assert (E : (MIN_VOLTAGE <=? volts) && (volts <=? MAX_VOLTAGE) = false).
  { unfold MIN_VOLTAGE, MAX_VOLTAGE. apply andb_false_iff.
    destruct Hv; [left; apply Z.leb_gt|right; apply Z.leb_gt]; lia. }
  rewrite E, andb_false_r. reflexivity.
Qed.





(** ** The measurement loop *)

Lemma float_of_int_raises (z : Z) (e : exn) :
  float_of_int z = Raise e -> e = OverflowError.
Proof.
  unfold float_of_int. destruct (int_to_SF z); congruence.
Qed.

Lemma int_of_float_raises (x : float) (e : exn) :
  int_of_float x = Raise e -> e <> SerialException.
Proof.
  unfold int_of_float. destruct (Prim2SF x); congruence.
Qed.

Lemma to_amperes_raises (r : RangeEnum) (raw : Z) (e : exn) :
  Range.to_amperes r raw = Raise e -> e = OverflowError.
Proof.
  unfold Range.to_amperes, bind.
  destruct (float_of_int raw) eqn:E; [discriminate|].
  intros H. injection H as <-. exact (float_of_int_raises _ _ E).
Qed.

Lemma py_add_raises (a : pynum) (x : float) (e : exn) :
  py_add a x = Raise e -> e = OverflowError.
Proof.
  destruct a as [z|f]; cbn [py_add]; [|discriminate].
  unfold bind. destruct (float_of_int z) eqn:E; [discriminate|].
  intros H. injection H as <-. exact (float_of_int_raises _ _ E).
Qed.

Ltac world_step := cbv beta iota; cbn [chan host fst snd].

(** One pass through the [try] block: it leaves the channel alone, it
    never raises [SerialException], and it either breaks on the flag, skips
    a sentinel, or accumulates one count. *)
Lemma loop_try_cases (a : accum) (w : World) :
  match loop_try a w with
  | (Ok Break, w') => w' = w /\ _stop (chan w) = true
  | (Ok (Next a'), w') =>
      chan w' = chan w /\ _stop (chan w) = false
      /\ (a' = a
          \/ exists iter amps sum,
               iter <> -1
               /\ Range.to_amperes (_range (chan w)) iter = Ok amps
               /\ py_add (result_ a) amps = Ok sum
               /\ a' = accumulate a iter sum)
  | (Raise e, w') => chan w' = chan w /\ e <> SerialException
  end.
Proof.
  destruct w as [c h].
  unfold loop_try, bindM, on_chan, gets, ret, lift, proxy. world_step.
  destruct (_stop c) eqn:Hstop; world_step.
  { split; reflexivity. }
  destruct (int_of_float (_exposition_time c / MIN_EXPOSITION_TIME))
    as [hint|e] eqn:Eh; world_step.
  2:{ split; [reflexivity|]. exact (int_of_float_raises _ _ Eh). }
  destruct (measure [address c; hint] h) as [[iter|e] h'] eqn:Em; world_step.
  2:{ split; [reflexivity|discriminate]. }
  destruct (Z.eqb_spec iter (-1)) as [Hi|Hi]; world_step.
  { split; [reflexivity|]. split; [reflexivity|]. left. reflexivity. }
  destruct (Range.to_amperes (_range c) iter) as [amps|e] eqn:Ea; world_step.
  2:{ split; [reflexivity|].
      rewrite (to_amperes_raises _ _ _ Ea). discriminate. }
  destruct (py_add (result_ a) amps) as [sum|e] eqn:Es; world_step.
  2:{ split; [reflexivity|].
      rewrite (py_add_raises _ _ _ Es). discriminate. }
  split; [reflexivity|]. split; [reflexivity|].
  right. exists iter, amps, sum. repeat split; assumption.
Qed.

(** The handler for [SerialException] in the loop finds nothing to catch:
    the guarded block and the bare block do the same. *)
Lemma loop_body_is_loop_try (a : accum) (w : World) : loop_body a w = loop_try a w.
Proof.
  unfold loop_body, try_except.
  pose proof (loop_try_cases a w) as H.
  destruct (loop_try a w) as [[c|e] w']; [reflexivity|].
  destruct H as [_ He]. destruct e; try reflexivity. congruence.
Qed.

Lemma zsum_snoc (xs : list Z) (x : Z) : zsum (xs ++ [x])%list = zsum xs + x.
Proof. unfold zsum. rewrite fold_left_app. reflexivity. Qed.

Lemma fsum_snoc (xs : list float) (x : float) :
  fsum (xs ++ [x])%list = (fsum xs + x)%float.
Proof. unfold fsum. rewrite fold_left_app. reflexivity. Qed.

Lemma amperes_of_snoc (r : RangeEnum) (raws : list Z) (raw : Z)
    (amps : list float) (x : float) :
  amperes_of r raws = Ok amps -> Range.to_amperes r raw = Ok x ->
  amperes_of r (raws ++ [raw])%list = Ok (amps ++ [x])%list.
Proof.
  revert amps. induction raws as [|y raws IH]; intros amps H Hx; cbn [amperes_of app] in *.
  - injection H as <-. rewrite Hx. reflexivity.
  - destruct (Range.to_amperes r y) as [ay|e]; [|discriminate]. cbn [bind] in *.
    destruct (amperes_of r raws) as [as'|e]; [|discriminate]. cbn [bind] in *.
    injection H as <-. rewrite (IH as' eq_refl Hx). reflexivity.
Qed.

Lemma float_of_int_zero : float_of_int 0 = Ok 0%float.
Proof. vm_compute. reflexivity. Qed.

Lemma averaged_start (r : RangeEnum) : averaged r accum0.
Proof.
  unfold averaged, accum0. cbn. repeat split. intros [].
Qed.

Lemma averaged_accumulate (r : RangeEnum) (a : accum) (iter : Z) (amps sum : float) :
  averaged r a -> iter <> -1 ->
  Range.to_amperes r iter = Ok amps -> py_add (result_ a) amps = Ok sum ->
  averaged r (accumulate a iter sum).
Proof.
  intros (Hc & Hr & Hn & Hs) Hi Ha Hsum.
  unfold averaged, accumulate. cbn [cycles result_raw accepted result_ List.length rev].
  split; [rewrite Hc; lia|].
  split; [rewrite zsum_snoc, Hr; reflexivity|].
  split; [intros [E|E]; [congruence|exact (Hn E)]|].
  destruct (accepted a) as [|y ys] eqn:E.
  - rewrite Hs in Hsum. cbn [py_add] in Hsum. rewrite float_of_int_zero in Hsum.
    cbn [bind] in Hsum. injection Hsum as <-.
    exists [amps]. cbn [rev app amperes_of]. rewrite Ha. split; reflexivity.
  - destruct Hs as (amps0 & Hamps & Hres).
    rewrite Hres in Hsum. cbn [py_add] in Hsum. injection Hsum as <-.
    exists (amps0 ++ [amps])%list. split.
    + apply amperes_of_snoc; assumption.
    + rewrite fsum_snoc. reflexivity.
Qed.

(** The [stop] of another thread, as the loop sees it: the flag is set,
    the settings stay, and a channel that was not in FAULT is not put
    there. *)
Lemma concurrent_stop (c : Channel) :
  exists c',
    try_except stop (fun _ => ret tt) c = (Ok tt, c')
    /\ _range c' = _range c
    /\ (state c <> FAULT -> state c' <> FAULT).
Proof.
  unfold try_except, stop, bindM, gets, modify, raise, ret.
  destruct c as [ad hv rg off ex cu rc st sta].
  destruct sta; cbn; eexists; (split; [reflexivity|]); split; try reflexivity;
    cbn; intros H; first [discriminate | exact H].
Qed.

(** The loop keeps its variables in step with the accepted counts, never
    raises [SerialException] and never puts the channel in FAULT. *)
Lemma measure_loop_invariant (start_time : float) (ticks : list tick) :
  forall (a : accum) (w : World),
    averaged (_range (chan w)) a -> state (chan w) <> FAULT ->
    match measure_loop start_time ticks a w with
    | (Ok (Some a'), w') =>
        averaged (_range (chan w)) a' /\ state (chan w') <> FAULT
    | (Ok None, w') => state (chan w') <> FAULT
    | (Raise e, w') => e <> SerialException /\ state (chan w') <> FAULT
    end.
Proof.
  induction ticks as [|tk ticks IH]; intros a w Hav Hst.
  - cbn. exact Hst.
  - cbn [measure_loop]. unfold bindM at 1.
    assert (Hstop : exists w1,
               (if stop_called tk
                then on_chan (try_except stop (fun _ => ret tt))
                else ret tt) w = (Ok tt, w1)
               /\ _range (chan w1) = _range (chan w)
               /\ state (chan w1) <> FAULT).
    { destruct (stop_called tk).
      - destruct (concurrent_stop (chan w)) as (c' & E & Hr & Hs).
        exists (mkWorld c' (host w)). unfold on_chan. rewrite E.
        cbn [chan]. repeat split; [assumption|auto].
      - exists w. repeat split; assumption. }
    destruct Hstop as (w1 & -> & Hr1 & Hs1).
    unfold bindM at 1. unfold on_chan at 1, gets at 1. cbv beta iota.
    replace (mkWorld (chan w1) (host w1)) with w1 by (destruct w1; reflexivity).
    destruct (now tk - start_time <=? _exposition_time (chan w1))%float;
      [|split; assumption].
    unfold bindM. rewrite loop_body_is_loop_try.
    pose proof (loop_try_cases a w1) as Hc.
    destruct (loop_try a w1) as [[[|a']|e] w2].
    + destruct Hc as [-> _]. split; assumption.
    + destruct Hc as (Hch & _ & Hacc).
      assert (Hav' : averaged (_range (chan w2)) a').
      { rewrite Hch, Hr1. destruct Hacc as [->|(iter & amps & sum & Hi & Ha & Hs & ->)].
        - assumption.
        - rewrite Hr1 in Ha. eapply averaged_accumulate; eassumption. }
      assert (Hst' : state (chan w2) <> FAULT) by (rewrite Hch; assumption).
      specialize (IH a' w2 Hav' Hst').
      rewrite Hch, Hr1 in IH. exact IH.
    + destruct Hc as [Hch He]. split; [assumption|]. rewrite Hch. assumption.
Qed.

Lemma int_truediv_raises (a b : Z) (e : exn) :
  int_truediv a b = Raise e -> e <> SerialException.
Proof.
  unfold int_truediv. destruct (b =? 0); [congruence|].
  destruct (SFdiv prec emax (exact_SF a) (exact_SF b)); congruence.
Qed.

Lemma py_truediv_raises (a : pynum) (n : Z) (e : exn) :
  py_truediv a n = Raise e -> e <> SerialException.
Proof.
  destruct a as [z|f]; cbn [py_truediv].
  - apply int_truediv_raises.
  - unfold bind. destruct (float_of_int n) as [d|e'] eqn:E.
    + destruct (d =? 0)%float; congruence.
    + intros H. injection H as <-. rewrite (float_of_int_raises _ _ E). discriminate.
Qed.

(** The statements after the loop: either they store the two quotients
    (or NaN and [-1]), clear the flag and set ON, or a quotient raises and
    the state is left as the loop left it. *)
Lemma loop_exit_cases (a : accum) (w : World) :
  match loop_exit a w with
  | (Ok _, w') =>
      (0 < cycles a ->
       exists cur raw,
         py_truediv (result_ a) (cycles a) = Ok cur
         /\ int_truediv (result_raw a) (cycles a) = Ok raw
         /\ _current (chan w') = cur
         /\ _raw_current (chan w') = PFloat raw)
      /\ (cycles a <= 0 ->
          _current (chan w') = nan /\ _raw_current (chan w') = PInt (-1))
      /\ _stop (chan w') = false
      /\ state (chan w') = ON
  | (Raise e, w') => e <> SerialException /\ state (chan w') = state (chan w)
  end.
Proof.
  destruct w as [c h].
  unfold loop_exit, bindM, on_chan, modify, lift. world_step.
  destruct (Z.ltb_spec 0 (cycles a)) as [Hpos|Hnon]; world_step.
  - destruct (py_truediv (result_ a) (cycles a)) as [cur|e] eqn:Ec; world_step.
    2:{ split; [exact (py_truediv_raises _ _ _ Ec)|reflexivity]. }
    destruct (int_truediv (result_raw a) (cycles a)) as [raw|e] eqn:Er; world_step.
    2:{ split; [exact (int_truediv_raises _ _ _ Er)|reflexivity]. }
    split; [|split; [|split]]; try reflexivity.
    + intros _. exists cur, raw. repeat split; reflexivity.
    + intros H. lia.
  - split; [|split; [|split]]; try reflexivity.
    + intros H. lia.
    + intros _. split; reflexivity.
Qed.

Lemma py_truediv_float (f : float) (n : Z) (cur : float) :
  py_truediv (PFloat f) n = Ok cur ->
  exists d, float_of_int n = Ok d /\ cur = (f / d)%float.
Proof.
  cbn [py_truediv]. unfold bind.
  destruct (float_of_int n) as [d|e]; [|discriminate].
  destruct (d =? 0)%float; [discriminate|].
  intros H. injection H as <-. exists d. split; reflexivity.
Qed.

(** [__measure] from its first statement to its last. *)
Lemma measure_cases (start_time : float) (ticks : list tick) (w : World) :
  match __measure start_time ticks w with
  | (Ok (Some a), w') =>
      averaged (_range (chan w)) a
      /\ (0 < cycles a ->
          exists cur raw,
            py_truediv (result_ a) (cycles a) = Ok cur
            /\ int_truediv (result_raw a) (cycles a) = Ok raw
            /\ _current (chan w') = cur
            /\ _raw_current (chan w') = PFloat raw)
      /\ (cycles a <= 0 ->
          _current (chan w') = nan /\ _raw_current (chan w') = PInt (-1))
      /\ _stop (chan w') = false
      /\ state (chan w') = ON
  | (Ok None, w') => state (chan w') <> FAULT
  | (Raise e, w') => e <> SerialException /\ state (chan w') <> FAULT
  end.
Proof.
  unfold __measure. unfold bindM at 1. unfold on_chan at 1, modify at 1.
  cbv beta iota.
  set (w0 := mkWorld (set_state RUNNING (chan w)) (host w)).
  assert (Hr : _range (chan w0) = _range (chan w)) by reflexivity.
  assert (Hs : state (chan w0) <> FAULT) by (cbn; discriminate).
  pose proof (measure_loop_invariant start_time ticks accum0 w0
                (averaged_start _) Hs) as Hloop.
  unfold bindM at 1.
  destruct (measure_loop start_time ticks accum0 w0) as [[[a|]|e] w1].
  - destruct Hloop as [Hav Hst1]. rewrite Hr in Hav.
    unfold bindM, ret.
    pose proof (loop_exit_cases a w1) as Hexit.
    destruct (loop_exit a w1) as [[[]|e] w2].
    + split; [exact Hav|exact Hexit].
    + destruct Hexit as [He Hsame]. split; [exact He|]. rewrite Hsame. exact Hst1.
  - exact Hloop.
  - exact Hloop.
Qed.

(** The [stop] of another thread changes neither the host nor the settings
    of the channel. *)
Lemma stop_between (tk : tick) (w : World) :
  exists c',
    (if stop_called tk
     then on_chan (try_except stop (fun _ => ret tt))
     else ret tt) w = (Ok tt, mkWorld c' (host w))
    /\ address c' = address (chan w)
    /\ nothing_measured c' = nothing_measured (chan w).
Proof.
  destruct w as [c h]. destruct (stop_called tk).
  - unfold on_chan, try_except, stop, bindM, gets, modify, raise, ret.
    cbn [chan host]. destruct c as [ad hv rg off ex cu rc st sta].
    destruct sta; cbn; eexists; repeat split; reflexivity.
  - exists c. repeat split; reflexivity.
Qed.

(** What one [measure] adds to the wire. *)
Lemma measure_wire (addr hint : Z) (h : Host) :
  (wire (snd (measure [addr; hint] h)) = wire h
   \/ wire (snd (measure [addr; hint] h)) = (wire h ++ [read_command addr])%list)
  /\ (forall z, fst (measure [addr; hint] h) = Ok z -> z <> -1 ->
      wire (snd (measure [addr; hint] h)) = (wire h ++ [read_command addr])%list).
Proof.
  unfold measure, read_command. destruct (valid_channel addr).
  2:{ cbn. split; [left; reflexivity|]. intros z H. injection H as <-. congruence. }
  unfold bindM, lift. destruct (float_of_int hint) as [f|e].
  2:{ cbn. split; [left; reflexivity|]. discriminate. }
  destruct (port_io h) as [|[| |answer] io] eqn:E.
  - rewrite (query_silent _ _ _ _ E). cbn [fst snd wire].
    split; [right; reflexivity|reflexivity].
  - rewrite (query_write_error _ _ _ _ _ E). cbn [fst snd wire].
    split; [left; reflexivity|discriminate].
  - rewrite (query_read_error _ _ _ _ _ E). cbn [fst snd wire].
    split; [right; reflexivity|reflexivity].
  - rewrite (query_received _ _ _ _ _ _ E). cbn [fst snd wire].
    split; [right; reflexivity|reflexivity].
Qed.

(** One pass of the loop and the wire. *)
Lemma loop_try_wire (a : accum) (w : World) :
  chan (snd (loop_try a w)) = chan w
  /\ (wire (host (snd (loop_try a w))) = wire (host w)
      \/ wire (host (snd (loop_try a w)))
         = (wire (host w) ++ [read_command (address (chan w))])%list)
  /\ (forall a', fst (loop_try a w) = Ok (Next a') ->
      a' = a
      \/ (cycles a' = cycles a + 1
          /\ wire (host (snd (loop_try a w)))
             = (wire (host w) ++ [read_command (address (chan w))])%list)).
Proof.
  destruct w as [c h].
  unfold loop_try, bindM, on_chan, gets, ret, lift, proxy. world_step.
  destruct (_stop c); world_step.
  { split; [reflexivity|]. split; [left; reflexivity|discriminate]. }
  destruct (int_of_float (_exposition_time c / MIN_EXPOSITION_TIME)) as [hint|e];
    world_step.
  2:{ split; [reflexivity|]. split; [left; reflexivity|discriminate]. }
  pose proof (measure_wire (address c) hint h) as [Hw Hacc].
  destruct (measure [address c; hint] h) as [[iter|e] h']; cbn [fst snd] in *; world_step.
  2:{ split; [reflexivity|]. split; [exact Hw|discriminate]. }
  destruct (Z.eqb_spec iter (-1)) as [Hi|Hi]; world_step.
  { split; [reflexivity|]. split; [exact Hw|].
    intros a' H. injection H as <-. left. reflexivity. }
  destruct (Range.to_amperes (_range c) iter) as [amps|e]; world_step.
  2:{ split; [reflexivity|]. split; [exact Hw|discriminate]. }
  destruct (py_add (result_ a) amps) as [sum|e]; world_step.
  2:{ split; [reflexivity|]. split; [exact Hw|discriminate]. }
  split; [reflexivity|]. split; [exact Hw|].
  intros a' H. injection H as <-. right. split; [reflexivity|].
  exact (Hacc iter eq_refl Hi).
Qed.

Lemma repeat_snoc {A : Type} (x : A) (k : nat) :
  (repeat x k ++ [x])%list = repeat x (S k).
Proof. induction k as [|k IH]; cbn in *; congruence. Qed.

(** One evaluation of the loop condition, and the pass that follows. *)
Lemma measure_loop_cons (start_time : float) (tk : tick) (ticks : list tick)
    (a : accum) (w : World) :
  exists c1,
    address c1 = address (chan w)
    /\ nothing_measured c1 = nothing_measured (chan w)
    /\ measure_loop start_time (tk :: ticks) a w
       = if (now tk - start_time <=? _exposition_time c1)%float
         then match loop_try a (mkWorld c1 (host w)) with
              | (Ok Break, w2) => (Ok (Some a), w2)
              | (Ok (Next a1), w2) => measure_loop start_time ticks a1 w2
              | (Raise e, w2) => (Raise e, w2)
              end
         else (Ok (Some a), mkWorld c1 (host w)).
Proof.
  destruct (stop_between tk w) as (c1 & Hs & Ha1 & Hn1).
  exists c1. split; [exact Ha1|]. split; [exact Hn1|].
  cbn [measure_loop]. unfold bindM at 1. rewrite Hs.
  unfold bindM at 1. unfold on_chan at 1, gets at 1. cbv beta iota. cbn [chan host].
  destruct (now tk - start_time <=? _exposition_time c1)%float; [|reflexivity].
  unfold bindM. rewrite loop_body_is_loop_try.
  destruct (loop_try a (mkWorld c1 (host w))) as [[[|a1]|e] w2]; reflexivity.
Qed.

(** The loop and the wire: only read commands for the channel's own
    address, one per pass at most, and no count without one. *)
Lemma measure_loop_wire (start_time : float) (ticks : list tick) :
  forall (a : accum) (w : World),
  exists k,
    (k <= List.length ticks)%nat
    /\ wire (host (snd (measure_loop start_time ticks a w)))
       = (wire (host w) ++ repeat (read_command (address (chan w))) k)%list
    /\ (forall a', fst (measure_loop start_time ticks a w) = Ok (Some a') ->
        cycles a' <= cycles a + Z.of_nat k).
Proof.
  induction ticks as [|tk ticks IH]; intros a w.
  - exists 0%nat. cbn. rewrite app_nil_r. repeat split; try lia.
    intros a' H. discriminate.
  - destruct (measure_loop_cons start_time tk ticks a w) as (c1 & Ha1 & _ & ->).
    destruct (now tk - start_time <=? _exposition_time c1)%float.
    2:{ exists 0%nat. cbn [repeat snd fst host List.length]. rewrite app_nil_r.
        repeat split; try lia. intros a' H. injection H as <-. lia. }
    pose proof (loop_try_wire a (mkWorld c1 (host w))) as (Hch & Hw & Hacc).
    destruct (loop_try a (mkWorld c1 (host w))) as [[[|a1]|e] w2];
      cbn [fst snd chan host] in *.
    + (* the flag ends the loop *)
      destruct Hw as [Hw|Hw]; [exists 0%nat|exists 1%nat];
        rewrite Hw, <- Ha1; cbn [repeat List.length]; rewrite ?app_nil_r;
        (split; [lia|split; [reflexivity|]]);
        intros a' H; injection H as <-; lia.
    + (* one more pass *)
      destruct (IH a1 w2) as (k & Hk & Hwire & Hcyc).
      rewrite Hch in Hwire. cbn [address] in Hwire. rewrite Ha1 in Hwire.
      rewrite Ha1 in Hw, Hacc.
      destruct (Hacc a1 eq_refl) as [-> | [Hc1 Hw1]].
      * destruct Hw as [Hw|Hw]; rewrite Hw in Hwire.
        -- exists k. split; [cbn [List.length]; lia|]. split; [exact Hwire|].
           exact Hcyc.
        -- exists (S k). split; [cbn [List.length]; lia|]. split.
           ++ rewrite Hwire, <- app_assoc. reflexivity.
           ++ intros a' H. specialize (Hcyc a' H). lia.
      * rewrite Hw1 in Hwire. exists (S k). split; [cbn [List.length]; lia|]. split.
        -- rewrite Hwire, <- app_assoc. reflexivity.
        -- intros a' H. specialize (Hcyc a' H). lia.
    + (* an exception leaves the loop *)
      destruct Hw as [Hw|Hw]; [exists 0%nat|exists 1%nat];
        rewrite Hw, <- Ha1; cbn [repeat List.length]; rewrite ?app_nil_r;
        (split; [lia|split; [reflexivity|]]);
        intros a' H; discriminate H.
Qed.

(** [__measure] as its loop and the statements after it. *)
Lemma measure_unfold (start_time : float) (ticks : list tick) (w : World) :
  __measure start_time ticks w
  = match measure_loop start_time ticks accum0
            (mkWorld (set_state RUNNING (chan w)) (host w)) with
    | (Ok (Some a), w1) => (loop_exit a ;;; ret (Some a))%m w1
    | (Ok None, w1) => (Ok None, w1)
    | (Raise e, w1) => (Raise e, w1)
    end.
Proof.
  unfold __measure. unfold bindM at 1. unfold on_chan at 1, modify at 1.
  cbv beta iota. unfold bindM at 1.
  destruct (measure_loop start_time ticks accum0 _) as [[[a|]|e] w1]; reflexivity.
Qed.

(** The statements after the loop do not touch the host, and hand back
    the loop variables they were given. *)
Lemma loop_exit_host (a : accum) (w1 : World) :
  host (snd ((loop_exit a ;;; ret (Some a))%m w1)) = host w1
  /\ forall a', fst ((loop_exit a ;;; ret (Some a))%m w1) = Ok (Some a') -> a' = a.
Proof.
  destruct w1 as [c1 h1].
  unfold loop_exit, bindM, on_chan, modify, lift, ret. world_step.
  destruct (0 <? cycles a); world_step.
  - destruct (py_truediv (result_ a) (cycles a)); world_step;
      [|split; [reflexivity|discriminate]].
    destruct (int_truediv (result_raw a) (cycles a)); world_step;
      [|split; [reflexivity|discriminate]].
    split; [reflexivity|]. intros a' H. injection H as <-. reflexivity.
  - split; [reflexivity|]. intros a' H. injection H as <-. reflexivity.
Qed.

(** One pass of the loop and the host: a pass that goes on has called
    [measure] once, for the channel's own address and exposition time, and
    has accepted what came back unless it was the sentinel. *)
Lemma loop_try_reading (a : accum) (w : World) :
  match loop_try a w with
  | (Ok Break, w2) => host w2 = host w
  | (Ok (Next a'), w2) =>
      exists hint z,
        int_of_float (_exposition_time (chan w) / MIN_EXPOSITION_TIME) = Ok hint
        /\ measure [address (chan w); hint] (host w) = (Ok z, host w2)
        /\ chan w2 = chan w
        /\ accepted a' = (if z =? -1 then accepted a else z :: accepted a)
  | (Raise _, _) => True
  end.
Proof.
  destruct w as [c h].
  unfold loop_try, bindM, on_chan, gets, ret, lift, proxy. world_step.
  destruct (_stop c); world_step; [reflexivity|].
  destruct (int_of_float (_exposition_time c / MIN_EXPOSITION_TIME)) as [hint|e];
    world_step; [|exact I].
  destruct (measure [address c; hint] h) as [[iter|e] h'] eqn:Em; world_step;
    [|exact I].
  destruct (iter =? -1) eqn:Hi; world_step.
  { exists hint, iter. rewrite Em, Hi. repeat split. }
  destruct (Range.to_amperes (_range c) iter) as [amps|e]; world_step; [|exact I].
  destruct (py_add (result_ a) amps) as [sum|e]; world_step; [|exact I].
  exists hint, iter. rewrite Em, Hi. repeat split.
Qed.

(** The loop and the host: the counts the loop has accepted are the
    readings of the calls of [measure] it has made, the sentinels left
    out, and the host is where these calls have left it. *)
Lemma measure_loop_readings (start_time : float) (ticks : list tick) :
  forall (a : accum) (w : World),
    match measure_loop start_time ticks a w with
    | (Ok (Some a'), w') =>
        exists k hint rs,
          (k <= List.length ticks)%nat
          /\ (k = 0%nat
              \/ int_of_float (_exposition_time (chan w) / MIN_EXPOSITION_TIME) = Ok hint)
          /\ readings (address (chan w)) hint k (host w) = (Ok rs, host w')
          /\ rev (accepted a') = (rev (accepted a) ++ counted rs)%list
    | _ => True
    end.
Proof.
  induction ticks as [|tk ticks IH]; intros a w.
  - exact I.
  - destruct (measure_loop_cons start_time tk ticks a w) as (c1 & Ha1 & Hn1 & ->).
    apply (f_equal _exposition_time) in Hn1. cbn [nothing_measured _exposition_time] in Hn1.
    destruct (now tk - start_time <=? _exposition_time c1)%float.
    2:{ exists 0%nat, 0, []. cbn [readings host counted filter List.length].
        rewrite app_nil_r. repeat split; [lia|left; reflexivity]. }
    pose proof (loop_try_reading a (mkWorld c1 (host w))) as Hp.
    destruct (loop_try a (mkWorld c1 (host w))) as [[[|a1]|e] w2]; [| |exact I].
    + cbn [host] in Hp. exists 0%nat, 0, []. cbn [readings counted filter List.length].
      rewrite app_nil_r, Hp. repeat split; [lia|left; reflexivity].
    + destruct Hp as (hint & z & Hh & Hm & Hch & Hacc). cbn [chan host] in Hh, Hm, Hch.
      rewrite Hn1 in Hh. rewrite Ha1 in Hm.
      specialize (IH a1 w2).
      destruct (measure_loop start_time ticks a1 w2) as [[[a'|]|e] w']; try exact I.
      destruct IH as (k & hint' & rs & Hk & Hhint & Hrd & Hrev).
      rewrite Hch, Ha1 in Hrd. rewrite Hch, Hn1 in Hhint.
      exists (S k), hint, (z :: rs).
      split; [cbn [List.length]; lia|]. split; [right; exact Hh|]. split.
      * cbn [readings]. unfold bindM at 1. rewrite Hm. unfold bindM at 1.
        assert (E : readings (address (chan w)) hint k (host w2) = (Ok rs, host w')).
        { destruct Hhint as [->|Hh']; [exact Hrd|].
          rewrite Hh in Hh'. injection Hh' as <-. exact Hrd. }
        rewrite E. reflexivity.
      * rewrite Hrev, Hacc. unfold counted. cbn [filter].
        destruct (z =? -1); cbn [negb rev]; [reflexivity|].
        rewrite <- app_assoc. reflexivity.
Qed.

(** C3: a measurement that runs to its end has called the host's [measure]
    [k] times for its own channel, and what it leaves is the mean of what
    these calls returned, the sentinel [-1] skipped and nothing else: with
    [N] the number of the other readings, for [N > 0] [_current] is the
    sum of their amperes divided by [N] and [_raw_current] the sum of the
    readings divided by [N]; for [N = 0] they are NaN and [-1]; either way
    [_stop] is cleared and the state is ON. *)
Theorem measure_loop_averages (start_time : float) (ticks : list tick)
    (w w' : World) (a : accum) :
  __measure start_time ticks w = (Ok (Some a), w') ->
  exists k hint rs,
    (k <= List.length ticks)%nat
    /\ (k = 0%nat
        \/ int_of_float (_exposition_time (chan w) / MIN_EXPOSITION_TIME) = Ok hint)
    /\ readings (address (chan w)) hint k (host w) = (Ok rs, host w')
    /\ cycles a = Z.of_nat (List.length (counted rs))
    /\ (0 < cycles a ->
        exists amps n mean_raw,
          amperes_of (_range (chan w)) (counted rs) = Ok amps
          /\ float_of_int (cycles a) = Ok n
          /\ _current (chan w') = (fsum amps / n)%float
          /\ int_truediv (zsum (counted rs)) (cycles a) = Ok mean_raw
          /\ _raw_current (chan w') = PFloat mean_raw)
    /\ (cycles a = 0 ->
        _current (chan w') = nan /\ _raw_current (chan w') = PInt (-1))
    /\ _stop (chan w') = false
    /\ state (chan w') = ON.
Proof.
  intros Hrun. pose proof (measure_cases start_time ticks w) as H.
  rewrite Hrun in H.
  destruct H as ((Hc & Hr & _ & Hs) & Hpos & Hzero & Hstop & Hstate).
  rewrite measure_unfold in Hrun.
  pose proof (measure_loop_readings start_time ticks accum0
                (mkWorld (set_state RUNNING (chan w)) (host w))) as Hrd.
  destruct (measure_loop start_time ticks accum0
              (mkWorld (set_state RUNNING (chan w)) (host w))) as [[[a0|]|e] w1];
    try discriminate Hrun.
  destruct (loop_exit_host a0 w1) as [Hh Ha]. rewrite Hrun in Hh, Ha.
  cbn [fst snd] in Hh, Ha. specialize (Ha a eq_refl). subst a0.
  destruct Hrd as (k & hint & rs & Hk & Hhint & Hread & Hrev).
  cbn [chan host accepted accum0 rev app] in Hhint, Hread, Hrev.
  replace (address (set_state RUNNING (chan w))) with (address (chan w)) in Hread
    by (destruct (chan w); reflexivity).
  replace (_exposition_time (set_state RUNNING (chan w)))
    with (_exposition_time (chan w)) in Hhint by (destruct (chan w); reflexivity).
  rewrite <- Hh in Hread. rewrite Hrev in Hr.
  assert (Hlen : cycles a = Z.of_nat (List.length (counted rs))).
  { rewrite Hc, <- Hrev, length_rev. reflexivity. }
  exists k, hint, rs.
  split; [exact Hk|]. split; [exact Hhint|]. split; [exact Hread|].
  split; [exact Hlen|].
  split; [|split; [|split; assumption]].
  - intros Hp. destruct (Hpos Hp) as (cur & raw & Hcur & Hraw & Hcc & Hrc).
    destruct (accepted a) as [|y ys] eqn:E.
    { cbn in Hc. lia. }
    destruct Hs as (amps & Hamps & Hres).
    rewrite Hres in Hcur.
    destruct (py_truediv_float _ _ _ Hcur) as (d & Hd & ->).
    exists amps, d, raw. rewrite <- Hr, <- Hrev. repeat split; assumption.
  - intros Hz. apply Hzero. lia.
Qed.

Lemma measure_loop_averages_witness :
  exists a w',
    __measure 100
      [quiet 100.001; quiet 100.002; quiet 100.003; quiet 100.004; quiet 100.005;
       quiet 100.02]
      (bench (repeat (answers 131072000) 5)) = (Ok (Some a), w')
    /\ cycles a = 5
    /\ _current (chan w') = 0.5e-9%float
    /\ _raw_current (chan w') = PFloat 131072000
    /\ _stop (chan w') = false
    /\ state (chan w') = ON.
Proof.
  destruct (__measure 100
      [quiet 100.001; quiet 100.002; quiet 100.003; quiet 100.004; quiet 100.005;
       quiet 100.02]
      (bench (repeat (answers 131072000) 5))) as [r w'] eqn:E.
  assert (Hr : r = Ok (Some (mkAccum (PFloat 2.5000000000000001e-09) 655360000 5
                               [131072000; 131072000; 131072000; 131072000; 131072000]))).
  { apply (f_equal fst) in E. vm_compute in E. symmetry. exact E. }
  subst r.
  eexists. exists w'. split; [reflexivity|].
  pose proof (measure_loop_averages _ _ _ _ _ E)
    as (_ & _ & _ & _ & _ & _ & _ & _ & Hstop & Hstate).
  apply (f_equal snd) in E. vm_compute in E. subst w'.
  repeat split; first [exact Hstop | exact Hstate | vm_compute; reflexivity].
Defined.

(** C7 (what the code does instead): however [__measure] fails, the
    exception is not a [SerialException] and the channel is not in FAULT:
    a serial failure has already become [DevFailed] inside [query], which
    put the host device in FAULT, so the handler of the loop has nothing
    to catch and the channel stays as it was, RUNNING, or ON after a
    [stop]. *)
Theorem serial_failure_leaves_channel_running (start_time : float)
    (ticks : list tick) (w w' : World) (e : exn) :
  __measure start_time ticks w = (Raise e, w') ->
  e <> SerialException
  /\ (state (chan w') = RUNNING \/ state (chan w') = ON).
Proof.
  intros Hrun. pose proof (measure_cases start_time ticks w) as H.
  rewrite Hrun in H. destruct H as [He Hst]. split; [exact He|].
  destruct (state (chan w')); [right; reflexivity|left; reflexivity|congruence].
Qed.

Lemma serial_failure_leaves_channel_running_witness :
  exists w',
    __measure 100 [quiet 100.001; quiet 100.002; quiet 100.003; quiet 100.02]
      (bench [answers 1; ReadError; answers 2]) = (Raise DevFailed, w')
    /\ state (chan w') = RUNNING
    /\ host_state (host w') = FAULT
    /\ port_io (host w') = [answers 2]
    /\ List.length (wire (host w')) = 2%nat.
Proof.
  destruct (__measure 100 [quiet 100.001; quiet 100.002; quiet 100.003; quiet 100.02]
      (bench [answers 1; ReadError; answers 2])) as [r w'] eqn:E.
  assert (Hr : r = Raise DevFailed).
  { apply (f_equal fst) in E. vm_compute in E. symmetry. exact E. }
  subst r. exists w'. split; [reflexivity|].
  pose proof (serial_failure_leaves_channel_running _ _ _ _ _ E) as [_ Hst].
  apply (f_equal snd) in E. vm_compute in E. subst w'.
  destruct Hst as [Hst|Hst]; [|discriminate Hst].
  repeat split; first [exact Hst | vm_compute; reflexivity].
Defined.

(** C9 (what the code does instead): two accepted counts, 1 and 2, leave
    [_raw_current] at the float [1.5]. *)
Theorem raw_current_mean_is_fractional :
  fst (__measure 100 [quiet 100.001; quiet 100.002; quiet 100.02]
         (bench [answers 1; answers 2]))
  = Ok (Some (mkAccum (PFloat 1.1444091796875001e-17) 3 2 [2; 1]))
  /\ _raw_current
       (chan (snd (__measure 100 [quiet 100.001; quiet 100.002; quiet 100.02]
                     (bench [answers 1; answers 2]))))
     = PFloat 1.5.
Proof. split; vm_compute; reflexivity. Qed.

(** ** Threads on one link *)

Module ThreadsFacts.

Import Threads.

Lemma upd_same (f : nat -> pc) (t : nat) (p : pc) : upd f t p t = p.
Proof. unfold upd. rewrite Nat.eqb_refl. reflexivity. Qed.

Lemma upd_other (f : nat -> pc) (t u : nat) (p : pc) : u <> t -> upd f t p u = f u.
Proof. intros H. unfold upd. apply Nat.eqb_neq in H. rewrite H. reflexivity. Qed.

Lemma port_write_lock (cmd : string) (h : Host) :
  lock_count (snd (port_write cmd h)) = lock_count h.
Proof.
  unfold port_write. destruct (port_io h) as [|[| |a] io]; reflexivity.
Qed.

Lemma port_read_lock (h : Host) : lock_count (snd (port_read h)) = lock_count h.
Proof.
  unfold port_read. destruct (port_io h) as [|[| |a] io]; reflexivity.
Qed.

Lemma awaits_inside (p : pc) (cmd : string) :
  awaits_answer p cmd -> in_exchange p = true.
Proof. destruct p; cbn; intros H; (reflexivity || contradiction). Qed.

Lemma invariant_init (h : Host) : invariant (init h).
Proof.
  constructor; cbn.
  - reflexivity.
  - discriminate.
  - discriminate.
  - left. split; [constructor|]. intros t cmd H. exact H.
Qed.

(** Nobody waits for an answer when the holder does not. *)
Lemma nobody_awaits (s : sys) (t : nat) :
  invariant s -> owner s = Some t ->
  (forall cmd, ~ awaits_answer (pcs s t) cmd) ->
  whole (trace s) /\ forall u cmd, ~ awaits_answer (pcs s u) cmd.
Proof.
  intros I Ho Hn. destruct (inv_trace s I) as [H|(tr & t0 & cmd & _ & _ & Ho' & Ha)].
  - exact H.
  - rewrite Ho in Ho'. injection Ho' as <-. exfalso. exact (Hn cmd Ha).
Qed.

(** The holder waits for the answer to the last write on the wire. *)
Lemma holder_awaits (s : sys) (t : nat) (cmd : string) :
  invariant s -> awaits_answer (pcs s t) cmd ->
  exists tr, trace s = (tr ++ [(t, Wrote cmd)])%list /\ whole tr /\ owner s = Some t.
Proof.
  intros I Ha. destruct (inv_trace s I) as [[_ H]|(tr & t0 & cmd0 & Ht & Hw & Ho & Ha0)].
  - exfalso. exact (H t cmd Ha).
  - pose proof (inv_inside s I t (awaits_inside _ _ Ha)) as Ho'.
    rewrite Ho in Ho'. injection Ho' as ->.
    assert (cmd0 = cmd).
    { destruct (pcs s t); cbn in Ha, Ha0; try contradiction; congruence. }
    subst cmd0. exists tr. repeat split; assumption.
Qed.

Lemma invariant_call (s : sys) (t : nat) (cmd : string) (de : bool) (et : float) :
  invariant s -> invariant (exec s (Call t cmd de et)).
Proof.
  intros I. cbn [exec]. destruct (pcs s t) eqn:Ep; try exact I.
  constructor; unfold serialized; cbn [shared owner pcs trace].
  - apply (inv_free s I).
  - intros u Ho. destruct (inv_held s I u Ho) as [Hc Hin]. split; [exact Hc|].
    destruct (Nat.eq_dec u t) as [->|Hne].
    + rewrite Ep in Hin. discriminate.
    + rewrite upd_other by assumption. exact Hin.
  - intros u Hin. destruct (Nat.eq_dec u t) as [->|Hne].
    + rewrite upd_same in Hin. discriminate.
    + rewrite upd_other in Hin by assumption. apply (inv_inside s I u Hin).
  - destruct (inv_trace s I) as [[Hw Hn]|(tr & t0 & cmd0 & Ht & Hw & Ho & Ha)].
    + left. split; [exact Hw|]. intros u c. destruct (Nat.eq_dec u t) as [->|Hne].
      * rewrite upd_same. cbn. exact (fun H => H).
      * rewrite upd_other by assumption. apply Hn.
    + right. exists tr, t0, cmd0. repeat split; try assumption.
      destruct (Nat.eq_dec t0 t) as [->|Hne].
      * rewrite Ep in Ha. contradiction.
      * rewrite upd_other by assumption. exact Ha.
Qed.

Ltac sys_simpl := unfold serialized; cbn [shared owner pcs trace].

(** Threads other than the one that moved are where they were. *)
Lemma others_inside (s : sys) (t u : nat) (p : pc) :
  invariant s -> owner s = Some t -> u <> t ->
  in_exchange (upd (pcs s) t p u) = false.
Proof.
  intros I Ho Hne. rewrite upd_other by assumption.
  destruct (in_exchange (pcs s u)) eqn:E; [|reflexivity].
  pose proof (inv_inside s I u E) as Ho'. congruence.
Qed.

Lemma others_do_not_await (s : sys) (t u : nat) (p : pc) (cmd : string) :
  invariant s -> owner s = Some t -> u <> t ->
  ~ awaits_answer (upd (pcs s) t p u) cmd.
Proof.
  intros I Ho Hne Ha. apply awaits_inside in Ha.
  rewrite (others_inside s t u p I Ho Hne) in Ha. discriminate.
Qed.

(** The holder moves on inside its exchange, the lock untouched. *)
Lemma invariant_holder_moves (s : sys) (t : nat) (h' : Host) (p : pc)
    (tr' : list (nat * action)) :
  invariant s -> owner s = Some t ->
  lock_count h' = lock_count (shared s) ->
  in_exchange p = true ->
  serialized (mkSys h' (owner s) (upd (pcs s) t p) tr') ->
  invariant (mkSys h' (owner s) (upd (pcs s) t p) tr').
Proof.
  intros I Ho Hl Hp Hs. constructor; cbn [shared owner pcs trace].
  - rewrite Ho. discriminate.
  - intros u Hu. rewrite Ho in Hu. injection Hu as <-.
    rewrite Hl, upd_same. split; [apply (inv_held s I t Ho)|exact Hp].
  - intros u Hin. destruct (Nat.eq_dec u t) as [->|Hne]; [exact Ho|].
    rewrite (others_inside s t u p I Ho Hne) in Hin. discriminate.
  - exact Hs.
Qed.

Lemma invariant_step (s s' : sys) (t : nat) :
  invariant s -> step t s = Some s' -> invariant s'.
Proof.
  intros I. unfold step. destruct (pcs s t) as [last|cmd de et|cmd de et|cmd de et|cmd de|r] eqn:Ep.
  - discriminate.
  - (* acquire *)
    destruct (owner s) as [u|] eqn:Eo.
    { destruct (Nat.eqb_spec u t) as [->|Hne]; [|discriminate].
      destruct (inv_held s I t Eo) as [_ Hin]. rewrite Ep in Hin. discriminate. }
    intros H. injection H as <-.
    constructor; sys_simpl.
    + discriminate.
    + intros u Hu. injection Hu as <-. rewrite upd_same.
      cbn [lock_acquire lock_count]. rewrite (inv_free s I Eo). split; reflexivity.
    + intros u Hin. destruct (Nat.eq_dec u t) as [->|Hne]; [reflexivity|].
      rewrite upd_other in Hin by assumption.
      pose proof (inv_inside s I u Hin). congruence.
    + destruct (inv_trace s I) as [[Hw Hn]|(tr & t0 & cmd0 & _ & _ & Ho & _)];
        [|congruence].
      left. split; [exact Hw|]. intros u c. destruct (Nat.eq_dec u t) as [->|Hne].
      * rewrite upd_same. exact (fun H => H).
      * rewrite upd_other by assumption. apply Hn.
  - (* write *)
    assert (Ho : owner s = Some t) by (apply (inv_inside s I); rewrite Ep; reflexivity).
    destruct (nobody_awaits s t I Ho) as [Hw Hn].
    { intros c. rewrite Ep. exact (fun H => H). }
    pose proof (port_write_lock cmd (shared s)) as Hl.
    destruct (port_write cmd (shared s)) as [[[]|e] h'] eqn:Ew;
      cbn [snd] in Hl; intros H; injection H as <-.
    + apply invariant_holder_moves; try assumption; [reflexivity|].
      sys_simpl. right. exists (trace s), t, cmd.
      rewrite upd_same. repeat split; assumption.
    + apply invariant_holder_moves; try assumption; [reflexivity|].
      sys_simpl. left. split; [constructor; exact Hw|].
      intros u c. destruct (Nat.eq_dec u t) as [->|Hne].
      * rewrite upd_same. exact (fun H => H).
      * apply others_do_not_await; assumption.
  - (* timeout *)
    intros H. injection H as <-.
    destruct (holder_awaits s t cmd I) as (tr & Ht & Hw & Ho).
    { rewrite Ep. reflexivity. }
    apply invariant_holder_moves; try assumption; try reflexivity.
    sys_simpl. right. exists tr, t, cmd. rewrite upd_same. repeat split; assumption.
  - (* read *)
    destruct (holder_awaits s t cmd I) as (tr & Ht & Hw & Ho).
    { rewrite Ep. reflexivity. }
    assert (Hl : lock_count (snd ((if de then port_readline else port_read) (shared s)))
                 = lock_count (shared s)).
    { destruct de; apply port_read_lock. }
    destruct ((if de then port_readline else port_read) (shared s)) as [[answer|e] h'];
      cbn [snd] in Hl; intros H; injection H as <-.
    + apply invariant_holder_moves; try assumption; [reflexivity|].
      sys_simpl. left. split.
      * rewrite Ht, <- app_assoc. cbn [app]. constructor. exact Hw.
      * intros u c. destruct (Nat.eq_dec u t) as [->|Hne].
        -- rewrite upd_same. exact (fun H => H).
        -- apply others_do_not_await; assumption.
    + apply invariant_holder_moves; try assumption; [reflexivity|].
      sys_simpl. left. split.
      * rewrite Ht, <- app_assoc. cbn [app]. constructor. exact Hw.
      * intros u c. destruct (Nat.eq_dec u t) as [->|Hne].
        -- rewrite upd_same. exact (fun H => H).
        -- apply others_do_not_await; assumption.
  - (* release *)
    assert (Ho : owner s = Some t) by (apply (inv_inside s I); rewrite Ep; reflexivity).
    destruct (nobody_awaits s t I Ho) as [Hw Hn].
    { intros c. rewrite Ep. exact (fun H => H). }
    destruct (inv_held s I t Ho) as [Hc _].
    assert (Hz : lock_count (lock_release (shared s)) = 0%nat).
    { cbn [lock_release lock_count]. rewrite Hc. reflexivity. }
    rewrite Hz. cbn [Nat.eqb].
    intros H. injection H as <-.
    constructor; sys_simpl.
    + intros _. exact Hz.
    + discriminate.
    + intros u Hin. exfalso. destruct (Nat.eq_dec u t) as [->|Hne].
      * rewrite upd_same in Hin. discriminate.
      * rewrite (others_inside s t u _ I Ho Hne) in Hin. discriminate.
    + left. split; [exact Hw|]. intros u c. destruct (Nat.eq_dec u t) as [->|Hne].
      * rewrite upd_same. exact (fun H => H).
      * apply others_do_not_await; assumption.
Qed.

Lemma invariant_exec (s : sys) (e : event) : invariant s -> invariant (exec s e).
Proof.
  intros I. destruct e as [t cmd de et|t].
  - apply invariant_call, I.
  - cbn [exec]. destruct (step t s) as [s'|] eqn:E; [|exact I].
    exact (invariant_step s s' t I E).
Qed.

Lemma invariant_run (sched : list event) : forall s, invariant s -> invariant (run sched s).
Proof.
  unfold run. induction sched as [|e sched IH]; intros s I; cbn [fold_left].
  - exact I.
  - apply IH, invariant_exec, I.
Qed.


Lemma run_cons (e : event) (rest : list event) (s : sys) :
  run (e :: rest) s = run rest (exec s e).
Proof. reflexivity. Qed.

Lemma exec_step (s s' : sys) (t : nat) : step t s = Some s' -> exec s (Step t) = s'.
Proof. intros H. cbn [exec]. rewrite H. reflexivity. Qed.

Lemma exec_outside (s : sys) (t : nat) (l : option (result Z)) :
  pcs s t = Outside l -> exec s (Step t) = s.
Proof. intros H. cbn [exec]. unfold step. rewrite H. reflexivity. Qed.

(** The statement of thread [t] on a state written out. *)
Ltac solo_step t :=
  match goal with
  | |- context [exec (mkSys ?h ?o ?f ?tr) (Step t)] =>
      let E := fresh "E" in
      first
        [ eassert (E : exec (mkSys h o f tr) (Step t) = _);
          [ apply exec_step; unfold step; cbn [pcs shared owner trace];
            rewrite upd_same; cbn -[PrimFloat.add app answer_result];
            rewrite ?Nat.eqb_refl; reflexivity
          | rewrite E; clear E ]
        | eassert (E : exec (mkSys h o f tr) (Step t) = _);
          [ eapply exec_outside; cbn [pcs]; apply upd_same
          | rewrite E; clear E ] ]
  end.

(** One thread alone does what [query] does: the same result, the same
    host afterwards, the lock free again. *)
Lemma solo_is_query (h : Host) (t : nat) (cmd : string) (de : bool) (et : float) :
  pcs (run (solo t cmd de et) (init h)) t
  = Outside (Some (fst (query cmd de et (shared (init h)))))
  /\ shared (run (solo t cmd de et) (init h)) = snd (query cmd de et (shared (init h)))
  /\ owner (run (solo t cmd de et) (init h)) = None.
Proof.
  destruct h as [ct pt w pio lc hs]. unfold init, solo.
  cbn [command_timeout port_timeout wire port_io host_state shared].
  repeat rewrite run_cons. unfold run. cbn [fold_left].
  assert (E0 : exec (mkSys (mkHost ct pt w pio 0 hs) None (fun _ => Outside None) [])
                    (Call t cmd de et)
               = mkSys (mkHost ct pt w pio 0 hs) None
                       (upd (fun _ => Outside None) t (AtAcquire cmd de et)) [])
    by reflexivity.
  rewrite E0. clear E0.
  destruct pio as [|[| |answer] io]; destruct de.
  all: first
    [ rewrite (query_silent cmd _ et (mkHost ct pt w [] 0 hs) eq_refl)
    | rewrite (query_write_error cmd _ et (mkHost ct pt w (WriteError :: io) 0 hs) io eq_refl)
    | rewrite (query_read_error cmd _ et (mkHost ct pt w (ReadError :: io) 0 hs) io eq_refl)
    | rewrite (query_received cmd _ et (mkHost ct pt w (Received answer :: io) 0 hs)
                 answer io eq_refl) ].
  all: do 5 solo_step t.
  all: cbn [pcs shared owner fst snd]; rewrite upd_same; repeat split.
Qed.

End ThreadsFacts.

(** C4: on one host, whatever the schedule of the threads, at most one
    thread is between its [acquire] and its [release]; the port calls on
    the wire are whole exchanges one after the other (a write, then the
    read of the same thread), never interleaved; a thread outside [query]
    never holds the lock, whichever way it left; and [query] itself hands
    the lock back on every way out, which is what a thread running alone
    does. *)
Theorem one_exchange_at_a_time (h : Host) (sched : list Threads.event) :
  (forall t u,
      Threads.in_exchange (Threads.pcs (Threads.run sched (Threads.init h)) t) = true ->
      Threads.in_exchange (Threads.pcs (Threads.run sched (Threads.init h)) u) = true ->
      t = u)
  /\ Threads.serialized (Threads.run sched (Threads.init h))
  /\ (forall t,
         Threads.owner (Threads.run sched (Threads.init h)) = Some t ->
         Threads.in_exchange (Threads.pcs (Threads.run sched (Threads.init h)) t) = true)
  /\ (forall cmd de et h0, lock_count (snd (query cmd de et h0)) = lock_count h0)
  /\ (forall t cmd de et,
         Threads.pcs (Threads.run (Threads.solo t cmd de et) (Threads.init h)) t
         = Threads.Outside (Some (fst (query cmd de et (Threads.shared (Threads.init h)))))
         /\ Threads.shared (Threads.run (Threads.solo t cmd de et) (Threads.init h))
            = snd (query cmd de et (Threads.shared (Threads.init h)))
         /\ Threads.owner (Threads.run (Threads.solo t cmd de et) (Threads.init h)) = None).
Proof.
  pose proof (ThreadsFacts.invariant_run sched _ (ThreadsFacts.invariant_init h)) as I.
  split; [|split; [|split; [|split]]].
  - intros t u Ht Hu.
    pose proof (Threads.inv_inside _ I t Ht) as H1.
    pose proof (Threads.inv_inside _ I u Hu) as H2. congruence.
  - exact (Threads.inv_trace _ I).
  - intros t Ho. exact (proj2 (Threads.inv_held _ I t Ho)).
  - intros cmd de et h0. apply query_restores_lock.
  - intros t cmd de et. apply ThreadsFacts.solo_is_query.
Qed.

(** Two threads, the second asking for the lock while the first is between
    its write and its read: the second waits, and the wire shows the first
    exchange whole before the second begins. *)
Lemma two_threads_do_not_interleave :
  Threads.trace
    (Threads.run
       [Threads.Call 0 ("*RST1" ++ LF) false 0; Threads.Call 1 (":READ2:CURR?" ++ LF) true 0;
        Threads.Step 0; Threads.Step 0; Threads.Step 1; Threads.Step 1;
        Threads.Step 0; Threads.Step 1; Threads.Step 0; Threads.Step 0;
        Threads.Step 1; Threads.Step 1; Threads.Step 1; Threads.Step 1; Threads.Step 1]
       (Threads.init (bench_host [Received ACK; answers 7])))
  = [(0%nat, Threads.Wrote ("*RST1" ++ LF)); (0%nat, Threads.Got ACK);
     (1%nat, Threads.Wrote (":READ2:CURR?" ++ LF));
     (1%nat, Threads.Got (framed "006" 7))].
Proof. vm_compute. reflexivity. Qed.

(** * Further properties of the code *)

(** ** The fitting helpers *)

(** X1: [fit_voltage_range] and [fit_offset_range] are total clamps onto
    [0..1700] and [0..99]: a value below the range becomes 0, a value above
    it the upper limit, a value inside is kept, and fitting twice is
    fitting once. *)
Theorem fit_int_ranges_clamp (v : Z) :
  fit_voltage_range v = (if v <? 0 then 0 else if 1700 <? v then 1700 else v)
  /\ 0 <= fit_voltage_range v <= 1700
  /\ fit_voltage_range (fit_voltage_range v) = fit_voltage_range v
  /\ fit_offset_range v = (if v <? 0 then 0 else if 99 <? v then 99 else v)
  /\ 0 <= fit_offset_range v <= 99
  /\ fit_offset_range (fit_offset_range v) = fit_offset_range v.
Proof.
  unfold fit_voltage_range, fit_offset_range, MIN_VOLTAGE, MAX_VOLTAGE,
    MIN_OFFSET, MAX_OFFSET.
  destruct (Z.ltb_spec v 0), (Z.ltb_spec 1700 v), (Z.ltb_spec 99 v);
    repeat split; lia.
Qed.

Section ExpositionTimeAgain.

Local Open Scope float_scope.

Lemma not_nan_SF (t : float) : is_nan t = false -> Prim2SF t <> S754_nan.
Proof.
  unfold is_nan. rewrite eqb_spec. intros H E. rewrite E in H. discriminate H.
Qed.

(** A number that is not below the lower limit is at or above it. *)
Lemma not_below_min (t : float) :
  is_nan t = false -> (t <? MIN_EXPOSITION_TIME) = false ->
  (MIN_EXPOSITION_TIME <=? t) = true.
Proof.
  intros Hn. apply not_nan_SF in Hn. revert Hn.
  rewrite leb_spec, ltb_spec, min_exposition_SF. unfold SFleb, SFltb.
  destruct (Prim2SF t) as [s|s| |s m e]; cbn [SFcompare]; try congruence.
  - destruct s; congruence.
  - intros _. destruct s; [discriminate|].
    rewrite (compare_cont_flip m 4722366482869645).
    destruct (Z.compare_spec e (-72)), (Z.compare_spec (-72) e); try lia; try congruence.
    destruct (Pos.compare_cont Eq m 4722366482869645); cbn [CompOpp]; congruence.
Qed.

Lemma not_above_max (t : float) :
  is_nan t = false -> (MAX_EXPOSITION_TIME <? t) = false ->
  (t <=? MAX_EXPOSITION_TIME) = true.
Proof.
  intros Hn. apply not_nan_SF in Hn. revert Hn.
  rewrite leb_spec, ltb_spec, max_exposition_SF. unfold SFleb, SFltb.
  destruct (Prim2SF t) as [s|s| |s m e]; cbn [SFcompare]; try congruence.
  - destruct s; congruence.
  - intros _. destruct s; [reflexivity|].
    rewrite (compare_cont_flip m 5937362789990400).
    destruct (Z.compare_spec e (-36)), (Z.compare_spec (-36) e); try lia; try congruence.
    destruct (Pos.compare_cont Eq m 5937362789990400); cbn [CompOpp]; congruence.
Qed.

Lemma limits_fixed :
  fit_exp_time_range MIN_EXPOSITION_TIME = MIN_EXPOSITION_TIME
  /\ fit_exp_time_range MAX_EXPOSITION_TIME = MAX_EXPOSITION_TIME
  /\ (MIN_EXPOSITION_TIME <=? MIN_EXPOSITION_TIME) = true
  /\ (MIN_EXPOSITION_TIME <=? MAX_EXPOSITION_TIME) = true
  /\ (MAX_EXPOSITION_TIME <=? MAX_EXPOSITION_TIME) = true
  /\ (MAX_EXPOSITION_TIME <? MIN_EXPOSITION_TIME) = false
  /\ is_nan MIN_EXPOSITION_TIME = false
  /\ is_nan MAX_EXPOSITION_TIME = false.
Proof. repeat split; vm_compute; reflexivity. Qed.

(** The three ways [fit_exp_time_range] can go. *)
Lemma fit_exp_time_range_cases (t : float) :
  (is_nan t = true /\ fit_exp_time_range t = t)
  \/ (is_nan t = false /\ fit_exp_time_range t = MAX_EXPOSITION_TIME)
  \/ (is_nan t = false /\ fit_exp_time_range t = MIN_EXPOSITION_TIME)
  \/ (is_nan t = false /\ fit_exp_time_range t = t
      /\ (MIN_EXPOSITION_TIME <=? t) = true /\ (t <=? MAX_EXPOSITION_TIME) = true).
Proof.
  destruct limits_fixed as (_ & _ & _ & _ & _ & Hmm & _ & _).
  destruct (is_nan t) eqn:Hn.
  - left. split; [reflexivity|]. unfold fit_exp_time_range, py_min, py_max.
    rewrite (nan_not_above t _ Hn). cbv iota. rewrite (nan_not_below t _ Hn). reflexivity.
  - right. unfold fit_exp_time_range, py_min, py_max.
    destruct (MAX_EXPOSITION_TIME <? t) eqn:Ha.
    + left. rewrite Hmm. split; reflexivity.
    + destruct (t <? MIN_EXPOSITION_TIME) eqn:Hb.
      * right. left. split; reflexivity.
      * right. right. split; [reflexivity|]. split; [reflexivity|].
        split; [apply not_below_min|apply not_above_max]; assumption.
Qed.

(** X2: [fit_exp_time_range] is idempotent; its result is NaN exactly when
    its argument is, and otherwise lies in [1e-6, 86400]. *)
Theorem fit_exp_time_range_idempotent (t : float) :
  fit_exp_time_range (fit_exp_time_range t) = fit_exp_time_range t
  /\ is_nan (fit_exp_time_range t) = is_nan t
  /\ (is_nan t = true
      \/ ((MIN_EXPOSITION_TIME <=? fit_exp_time_range t)
          && (fit_exp_time_range t <=? MAX_EXPOSITION_TIME)) = true).
Proof.
  destruct limits_fixed as (Hmin & Hmax & H1 & H2 & H3 & _ & Hn1 & Hn2).
  destruct (fit_exp_time_range_cases t)
    as [[Hn E]|[[Hn E]|[[Hn E]|(Hn & E & Ha & Hb)]]]; rewrite E.
  - rewrite E. repeat split. left. exact Hn.
  - rewrite Hmax, Hn, Hn2. repeat split. right. rewrite H2, H3. reflexivity.
  - rewrite Hmin, Hn, Hn1. repeat split. right. rewrite H1, H2. reflexivity.
  - rewrite E. repeat split. right. rewrite Ha, Hb. reflexivity.
Qed.

End ExpositionTimeAgain.

(** ** The states of a channel *)

Ltac serve_compute :=
  unfold Chan.serve, Chan.map_reply, Chan.get_high_voltage, Chan.get_range,
    Chan.get_offset, Chan.get_exposition_time, Chan.read_guarded, Chan.get_current,
    Chan.get_raw_current, Chan.write_range, Chan.write_offset, Chan.start, Chan.reset,
    write_high_voltage, write_exposition_time, stop,
    on_chan, bindM, gets, modify, raise, ret, lift;
  cbn [chan host state fst snd DevState_eqb orb set_state set_stop
       address _high_voltage _range _offset _exposition_time _current _raw_current _stop].

(** X4: FAULT is final and silent.  Whatever a client asks of a channel in
    FAULT, the channel and its host are left exactly as they were, nothing
    is sent, and the request fails with [DevFailed]; the getters of
    [current] and [raw_current] answer NaN instead. *)
Theorem fault_is_final (q : Chan.request) (w : World) :
  state (chan w) = FAULT ->
  snd (Chan.serve q w) = w
  /\ fst (Chan.serve q w)
     = match q with
       | Chan.ReadCurrent => Ok (Chan.FloatValue nan)
       | Chan.ReadRawCurrent => Ok (Chan.NumValue (PFloat nan))
       | _ => Raise DevFailed
       end.
Proof.
  destruct w as [[ad hv rg off ex cu rc st sta] h]. cbn [chan state]. intros ->.
  destruct q; serve_compute; split; reflexivity.
Qed.

Lemma fault_is_final_witness :
  snd (Chan.serve (Chan.WriteHighVoltage 100)
         (mkWorld (set_state FAULT bench_channel) (bench_host [Received ACK])))
  = mkWorld (set_state FAULT bench_channel) (bench_host [Received ACK])
  /\ fst (Chan.serve Chan.ReadCurrent
            (mkWorld (set_state FAULT bench_channel) (bench_host [])))
     = Ok (Chan.FloatValue nan).
Proof.
  split.
  - apply (proj1 (fault_is_final (Chan.WriteHighVoltage 100)
                    (mkWorld (set_state FAULT bench_channel) (bench_host [Received ACK]))
                    eq_refl)).
  - apply (proj2 (fault_is_final Chan.ReadCurrent
                    (mkWorld (set_state FAULT bench_channel) (bench_host []))
                    eq_refl)).
Defined.

(** X5: while a measurement is RUNNING only the getters and [stop] are
    served.  A getter returns its field and changes nothing; [stop] sets the
    flag and the state ON; any setter, [start] or [reset] puts the channel
    in FAULT and raises [DevFailed], with every setting and the host
    untouched. *)
Theorem running_serves_reads_and_stop (q : Chan.request) (w : World) :
  state (chan w) = RUNNING ->
  Chan.serve q w
  = match q with
    | Chan.ReadHighVoltage => (Ok (Chan.IntValue (_high_voltage (chan w))), w)
    | Chan.ReadRange => (Ok (Chan.RangeValue (_range (chan w))), w)
    | Chan.ReadOffset => (Ok (Chan.IntValue (_offset (chan w))), w)
    | Chan.ReadExpositionTime => (Ok (Chan.FloatValue (_exposition_time (chan w))), w)
    | Chan.ReadCurrent => (Ok (Chan.FloatValue (_current (chan w))), w)
    | Chan.ReadRawCurrent => (Ok (Chan.NumValue (_raw_current (chan w))), w)
    | Chan.Stop =>
        (Ok Chan.NoValue, mkWorld (set_state ON (set_stop true (chan w))) (host w))
    | _ => (Raise DevFailed, mkWorld (set_state FAULT (chan w)) (host w))
    end.
Proof.
  destruct w as [[ad hv rg off ex cu rc st sta] h]. cbn [chan state]. intros ->.
  destruct q; serve_compute; reflexivity.
Qed.

Lemma running_serves_reads_and_stop_witness :
  Chan.serve (Chan.WriteOffset 10)
    (mkWorld (set_state RUNNING bench_channel) (bench_host [Received ACK]))
  = (Raise DevFailed,
     mkWorld (set_state FAULT bench_channel) (bench_host [Received ACK])).
Proof.
  apply (running_serves_reads_and_stop (Chan.WriteOffset 10)
           (mkWorld (set_state RUNNING bench_channel) (bench_host [Received ACK]))
           eq_refl).
Defined.

(** X6: [stop] from ON or RUNNING always ends in ON with the flag set, a
    second [stop] changes nothing more, and a [start] that follows is
    accepted and clears the flag again. *)
Theorem stop_then_start (c : Channel) :
  state c = ON \/ state c = RUNNING ->
  stop c = (Ok tt, set_state ON (set_stop true c))
  /\ stop (set_state ON (set_stop true c)) = (Ok tt, set_state ON (set_stop true c))
  /\ Chan.start (set_state ON (set_stop true c))
     = (Ok tt, set_state ON (set_stop false c)).
Proof.
  destruct c as [ad hv rg off ex cu rc st sta]. cbn [state].
  unfold stop, Chan.start, bindM, gets, modify, raise, ret.
  intros [-> | ->]; repeat split.
Qed.

Lemma stop_then_start_witness :
  Chan.start (set_state ON (set_stop true (set_state RUNNING bench_channel)))
  = (Ok tt, set_state ON (set_stop false (set_state RUNNING bench_channel))).
Proof.
  apply (proj2 (proj2 (stop_then_start (set_state RUNNING bench_channel)
                         (or_intror eq_refl)))).
Defined.

(** ** Settings: the range and the offset *)

Lemma RangeEnum_of_int_ordinal (r : RangeEnum) : RangeEnum_of_int (ordinal r) = Ok r.
Proof. destruct r; reflexivity. Qed.

Lemma RangeEnum_of_int_cases (n : Z) :
  (exists r, n = ordinal r /\ RangeEnum_of_int n = Ok r)
  \/ ((n < 0 \/ 5 < n) /\ RangeEnum_of_int n = Raise ValueError).
Proof.
  destruct n as [|p|p].
  - left. exists RANGE_1. split; reflexivity.
  - destruct p as [[[p|p|]|[p|p|]|]|[[p|p|]|[p|p|]|]|];
      first [ right; split; [lia|reflexivity]
            | left; exists RANGE_2; split; reflexivity
            | left; exists RANGE_3; split; reflexivity
            | left; exists RANGE_4; split; reflexivity
            | left; exists RANGE_5; split; reflexivity
            | left; exists RANGE_6; split; reflexivity ].
  - right. split; [lia|reflexivity].
Qed.

Lemma RangeEnum_of_int_ok (n : Z) (r : RangeEnum) :
  RangeEnum_of_int n = Ok r -> n = ordinal r.
Proof.
  intros H. destruct (RangeEnum_of_int_cases n) as [(r' & Hn & E)|[_ E]];
    rewrite E in H; [|discriminate].
  injection H as <-. exact Hn.
Qed.

Lemma RangeEnum_of_int_outside (n : Z) :
  n < 0 \/ 5 < n -> RangeEnum_of_int n = Raise ValueError.
Proof.
  intros H. destruct (RangeEnum_of_int_cases n) as [(r & Hn & _)|[_ E]]; [|exact E].
  destruct r; cbn in Hn; lia.
Qed.

(** A command that expects data, answered by a line that frames [n]. *)
Lemma query_framed (cmd : string) (et : float) (h : Host) (lead : ascii) (n : Z)
    (io : list port_event) :
  port_io h = Received (framed lead n) :: io -> Z.abs n < 2 ^ 4300 ->
  query cmd true et h
  = (Ok n,
     mkHost (command_timeout h) (command_timeout h + et)%float
            (wire h ++ [cmd]) io (lock_count h) (host_state h)).
Proof.
  intros H Hn. rewrite (query_received cmd true et h _ io H). f_equal.
  unfold answer_result.
  assert (E : rejected (framed lead n) true = false).
  { destruct (rejected (framed lead n) true) eqn:E; [|reflexivity].
    apply rejected_true_iff in E. pose proof (framed_length lead n).
    destruct E as [[_ E]|[[E _]|E]]; [lia|discriminate|].
    rewrite E in H0. cbn in H0. lia. }
  rewrite E, slice_framed. apply int_of_bytes_str_int, Hn.
Qed.

(** X7: the [range] setter of a channel in ON stores the member for an
    ordinal in [0..5] and sends the 1-based number [ordinal + 1] to the
    address of the channel, whatever that address is; any other number
    raises [ValueError] before anything is stored or sent. *)
Theorem range_setter_is_one_based (range : Z) (w : World) :
  state (chan w) = ON ->
  (forall r,
      RangeEnum_of_int range = Ok r ->
      range = ordinal r
      /\ _range (chan (snd (Chan.write_range range w))) = r
      /\ ((forall io, port_io (host w) <> WriteError :: io) ->
          wire (host (snd (Chan.write_range range w)))
          = (wire (host w)
               ++ [(":CONF" ++ str_int (address (chan w)) ++ ":CURR:RANG "
                      ++ str_int (ordinal r + 1) ++ LF)%string])%list))
  /\ (range < 0 \/ 5 < range -> Chan.write_range range w = (Raise ValueError, w)).
Proof.
  intros Hst. destruct w as [c h]. cbn [chan host] in *.
  unfold Chan.write_range, bindM, on_chan, gets, modify, lift, proxy.
  cbn [chan host fst snd]. rewrite Hst. cbn [DevState_eqb]. split.
  - intros r Hr. rewrite Hr. cbv beta iota. cbn [chan host fst snd address set_range].
    pose proof (RangeEnum_of_int_ok _ _ Hr) as ->.
    unfold write_range, index, bindM, lift, ret. cbn [nth_error].
    split; [reflexivity|].
    match goal with |- context [query ?cmd false ?et h] =>
      pose proof (query_wire cmd false et h) as W;
      destruct (query cmd false et h) as [[a|e] h']
    end; cbn [chan host fst snd _range] in *; (split; [reflexivity|]); exact W.
  - intros Hout. rewrite (RangeEnum_of_int_outside range Hout). reflexivity.
Qed.

Lemma range_setter_is_one_based_witness :
  wire (host (snd (Chan.write_range 2 (bench [Received ACK]))))
  = [":CONF3:CURR:RANG 3" ++ LF]
  /\ Chan.write_range 6 (bench [Received ACK]) = (Raise ValueError, bench [Received ACK]).
Proof.
  split.
  - apply (proj2 (proj2 (proj1 (range_setter_is_one_based 2 (bench [Received ACK])
                                  eq_refl) RANGE_3 eq_refl))).
    intros io. discriminate.
  - apply (proj2 (range_setter_is_one_based 6 (bench [Received ACK]) eq_refl)).
    right. lia.
Defined.

Ltac chan_compute :=
  cbv beta iota;
  cbn [chan host fst snd address _high_voltage _range _offset _exposition_time
       _current _raw_current _stop state set_offset set_range set_high_voltage
       command_timeout port_timeout wire port_io lock_count host_state].

Lemma answer_ack : answer_result ACK false = Ok 0.
Proof. vm_compute. reflexivity. Qed.

(** X8: what the [offset] setter leaves in [_offset] is the read-back, not
    the request.  With an address outside [0..15] nothing is sent and the
    field becomes [-1]; with an offset outside [0..98] (99 included) only
    the query goes out and the field takes the offset [n] the device
    reports; with an offset in [0..98] the write goes out, then the query,
    and the field again takes what the device reports. *)
Theorem offset_setter_keeps_read_back (offset : Z) (w : World) :
  state (chan w) = ON ->
  (address (chan w) < 0 \/ 15 < address (chan w) ->
   Chan.write_offset offset w = (Ok tt, mkWorld (set_offset (-1) (chan w)) (host w)))
  /\ (0 <= address (chan w) <= 15 -> offset < 0 \/ 99 <= offset ->
      forall lead n io,
        port_io (host w) = Received (framed lead n) :: io -> Z.abs n < 2 ^ 4300 ->
        Chan.write_offset offset w
        = (Ok tt,
           mkWorld (set_offset n (chan w))
             (mkHost (command_timeout (host w)) (command_timeout (host w) + 0)%float
                (wire (host w)
                   ++ [(":CONF" ++ str_int (address (chan w)) ++ ":CURR:OFFS?" ++ LF)%string])
                io (lock_count (host w)) (host_state (host w)))))
  /\ (0 <= address (chan w) <= 15 -> 0 <= offset < 99 ->
      forall lead n io,
        port_io (host w) = Received ACK :: Received (framed lead n) :: io ->
        Z.abs n < 2 ^ 4300 ->
        Chan.write_offset offset w
        = (Ok tt,
           mkWorld (set_offset n (chan w))
             (mkHost (command_timeout (host w)) (command_timeout (host w) + 0)%float
                (wire (host w)
                   ++ [(":CONF" ++ str_int (address (chan w)) ++ ":CURR:OFFS "
                          ++ str_int offset ++ LF)%string;
                       (":CONF" ++ str_int (address (chan w)) ++ ":CURR:OFFS?" ++ LF)%string])
                io (lock_count (host w)) (host_state (host w))))).
Proof.
  intros Hst. destruct w as [c h]. cbn [chan host] in *.
  unfold Chan.write_offset, bindM, on_chan, gets, modify, proxy.
  chan_compute. rewrite Hst. cbn [DevState_eqb]. chan_compute.
  split; [|split].
  - intros Ha. unfold write_offset, read_offset, ret.
    rewrite (invalid_channel _ Ha). cbn [andb]. chan_compute.
    rewrite (invalid_channel _ Ha). chan_compute. reflexivity.
  - intros Ha Ho lead n io Hio Hn.
    assert (Hv : valid_channel (address c) = true) by (apply valid_channel_iff, Ha).
    assert (Hg : (MIN_OFFSET <=? offset) && (offset <? MAX_OFFSET) = false).
    { unfold MIN_OFFSET, MAX_OFFSET. apply andb_false_iff.
      destruct Ho; [left; apply Z.leb_gt|right; apply Z.ltb_ge]; lia. }
    unfold write_offset, read_offset, ret. rewrite Hv, Hg. cbn [andb]. chan_compute.
    rewrite Hv. rewrite (query_framed _ 0%float h lead n io Hio Hn). chan_compute.
    reflexivity.
  - intros Ha Ho lead n io Hio Hn.
    assert (Hv : valid_channel (address c) = true) by (apply valid_channel_iff, Ha).
    assert (Hg : (MIN_OFFSET <=? offset) && (offset <? MAX_OFFSET) = true).
    { unfold MIN_OFFSET, MAX_OFFSET. apply andb_true_iff.
      split; [apply Z.leb_le|apply Z.ltb_lt]; lia. }
    unfold write_offset, read_offset, ret, bindM. rewrite Hv, Hg. cbn [andb].
    rewrite (query_received _ false 0%float h ACK _ Hio), answer_ack. chan_compute.
    rewrite Hv. erewrite query_framed; [|reflexivity|exact Hn]. chan_compute.
    rewrite <- app_assoc. reflexivity.
Qed.

Lemma offset_setter_keeps_read_back_witness :
  Chan.write_offset 99 (bench [answers 40])
  = (Ok tt,
     mkWorld (set_offset 40 bench_channel)
       (mkHost 0.5 (0.5 + 0)%float [":CONF3:CURR:OFFS?" ++ LF] [] 0 ON))
  /\ Chan.write_offset 50
       (mkWorld (mkChannel 16 0 RANGE_1 0 0.01 0 (PInt 0) false ON) (bench_host []))
     = (Ok tt,
        mkWorld (mkChannel 16 0 RANGE_1 (-1) 0.01 0 (PInt 0) false ON) (bench_host [])).
Proof.
  split.
  - apply (proj1 (proj2 (offset_setter_keeps_read_back 99 (bench [answers 40]) eq_refl))
             ltac:(cbn; lia) ltac:(right; lia) "006"%char 40 [] eq_refl).
    vm_compute. reflexivity.
  - apply (proj1 (offset_setter_keeps_read_back 50
                    (mkWorld (mkChannel 16 0 RANGE_1 0 0.01 0 (PInt 0) false ON)
                             (bench_host [])) eq_refl)).
    right. cbn. lia.
Defined.

(** ** Loading the settings from the device *)

Lemma ordinal_bound (r : RangeEnum) : Z.abs (ordinal r + 1) < 2 ^ 4300.
Proof.
  assert (H : 2 ^ 3 <= 2 ^ 4300) by (apply Z.pow_le_mono_r; lia).
  change (2 ^ 3) with 8 in H. destruct r; cbn [ordinal]; lia.
Qed.

Lemma RangeEnum_of_wire (r : RangeEnum) : RangeEnum_of_int (ordinal r + 1 - 1) = Ok r.
Proof. destruct r; reflexivity. Qed.

Lemma parameters_loaded (w : World) (v o : Z) (r : RangeEnum)
    (l1 l2 l3 : ascii) (io : list port_event) :
  0 <= address (chan w) <= 15 ->
  port_io (host w)
  = Received (framed l1 v) :: Received (framed l2 (ordinal r + 1))
      :: Received (framed l3 o) :: io ->
  Z.abs v < 2 ^ 4300 -> Z.abs o < 2 ^ 4300 ->
  Chan.get_ic_chamber_parameters w
  = (Ok tt,
     mkWorld (set_offset o (set_range r (set_high_voltage v (chan w))))
       (mkHost (command_timeout (host w)) (command_timeout (host w) + 0)%float
          (wire (host w)
             ++ [(":CONF" ++ str_int (address (chan w)) ++ ":VOLT?" ++ LF)%string;
                 (":CONF" ++ str_int (address (chan w)) ++ ":CURR:RANG?" ++ LF)%string;
                 (":CONF" ++ str_int (address (chan w)) ++ ":CURR:OFFS?" ++ LF)%string])
          io (lock_count (host w)) (host_state (host w)))).
Proof.
  intros Ha Hio Hv Ho. destruct w as [c h]. cbn [chan host] in *.
  assert (Hvc : valid_channel (address c) = true) by (apply valid_channel_iff, Ha).
  unfold Chan.get_ic_chamber_parameters, bindM, on_chan, gets, modify, proxy, lift,
    read_voltage, read_range, read_offset.
  chan_compute. rewrite Hvc.
  rewrite (query_framed _ 0%float h l1 v _ Hio Hv). chan_compute. rewrite Hvc.
  erewrite query_framed; [|reflexivity|apply ordinal_bound]. chan_compute.
  rewrite RangeEnum_of_wire. chan_compute. rewrite Hvc.
  erewrite query_framed; [|reflexivity|exact Ho]. chan_compute.
  rewrite <- !app_assoc. reflexivity.
Qed.

(** X9: [get_ic_chamber_parameters] on a valid address asks for voltage,
    range and offset in this order, and when the device answers [v], the
    1-based range number [ordinal r + 1] and [o], the channel holds [v],
    [r] and [o].  The [reset] command of a channel in ON sends [*RST]
    first and then loads the settings in the same way, whatever the device
    answered to the [*RST]. *)
Theorem chamber_parameters_round_trip (w : World) (v o : Z) (r : RangeEnum)
    (l1 l2 l3 : ascii) (io : list port_event) :
  0 <= address (chan w) <= 15 -> Z.abs v < 2 ^ 4300 -> Z.abs o < 2 ^ 4300 ->
  (port_io (host w)
   = Received (framed l1 v) :: Received (framed l2 (ordinal r + 1))
       :: Received (framed l3 o) :: io ->
   Chan.get_ic_chamber_parameters w
   = (Ok tt,
      mkWorld (set_offset o (set_range r (set_high_voltage v (chan w))))
        (mkHost (command_timeout (host w)) (command_timeout (host w) + 0)%float
           (wire (host w)
              ++ [(":CONF" ++ str_int (address (chan w)) ++ ":VOLT?" ++ LF)%string;
                  (":CONF" ++ str_int (address (chan w)) ++ ":CURR:RANG?" ++ LF)%string;
                  (":CONF" ++ str_int (address (chan w)) ++ ":CURR:OFFS?" ++ LF)%string])
           io (lock_count (host w)) (host_state (host w)))))
  /\ (forall any,
        state (chan w) = ON ->
        port_io (host w)
        = Received any :: Received (framed l1 v) :: Received (framed l2 (ordinal r + 1))
            :: Received (framed l3 o) :: io ->
        Chan.reset w
        = (Ok tt,
           mkWorld (set_offset o (set_range r (set_high_voltage v (chan w))))
             (mkHost (command_timeout (host w))
                (command_timeout (host w) + 0)%float
                (wire (host w)
                   ++ [("*RST" ++ str_int (address (chan w)) ++ LF)%string;
                       (":CONF" ++ str_int (address (chan w)) ++ ":VOLT?" ++ LF)%string;
                       (":CONF" ++ str_int (address (chan w)) ++ ":CURR:RANG?" ++ LF)%string;
                       (":CONF" ++ str_int (address (chan w)) ++ ":CURR:OFFS?" ++ LF)%string])
                io (lock_count (host w)) (host_state (host w))))).
Proof.
  intros Ha Hv Ho. split.
  - intros Hio. apply (parameters_loaded w v o r l1 l2 l3 io Ha Hio Hv Ho).
  - intros any Hst Hio. destruct w as [c h]. cbn [chan host] in *.
    unfold Chan.reset, reset. unfold bindM, on_chan, gets, modify, proxy, ret.
    chan_compute. rewrite Hst. cbn [DevState_eqb]. chan_compute.
    rewrite (query_received _ false 0%float h any _ Hio).
    assert (Hany : exists z, answer_result any false = Ok z).
    { unfold answer_result. destruct (rejected any false); eexists; reflexivity. }
    destruct Hany as [z ->]. chan_compute.
    rewrite (parameters_loaded _ v o r l1 l2 l3 io); chan_compute;
      [|assumption|reflexivity|assumption|assumption].
    rewrite <- !app_assoc. reflexivity.
Qed.

Lemma chamber_parameters_round_trip_witness :
  Chan.get_ic_chamber_parameters (bench [answers 1200; answers 4; answers 25])
  = (Ok tt,
     mkWorld (mkChannel 3 1200 RANGE_4 25 0.01 0 (PInt 0) false ON)
       (mkHost 0.5 (0.5 + 0)%float
          [":CONF3:VOLT?" ++ LF; ":CONF3:CURR:RANG?" ++ LF; ":CONF3:CURR:OFFS?" ++ LF]
          [] 0 ON)).
Proof.
  apply (proj1 (chamber_parameters_round_trip
                  (bench [answers 1200; answers 4; answers 25])
                  1200 25 RANGE_4 "006"%char "006"%char "006"%char []
                  ltac:(cbn; lia) ltac:(vm_compute; reflexivity)
                  ltac:(vm_compute; reflexivity))).
  reflexivity.
Defined.

(** X10: [get_ic_chamber_parameters] needs a range number in [1..6].  When
    the address is outside [0..15], or the device is silent, the voltage
    field has already become [-1] when [RangeEnum] refuses the sentinel
    and [ValueError] leaves the method; range and offset are not touched
    and the offset is not asked for. *)
Theorem chamber_parameters_without_range (w : World) :
  (address (chan w) < 0 \/ 15 < address (chan w) ->
   Chan.get_ic_chamber_parameters w
   = (Raise ValueError, mkWorld (set_high_voltage (-1) (chan w)) (host w)))
  /\ (0 <= address (chan w) <= 15 -> port_io (host w) = [] ->
      Chan.get_ic_chamber_parameters w
      = (Raise ValueError,
         mkWorld (set_high_voltage (-1) (chan w))
           (mkHost (command_timeout (host w)) (command_timeout (host w) + 0)%float
              (wire (host w)
                 ++ [(":CONF" ++ str_int (address (chan w)) ++ ":VOLT?" ++ LF)%string;
                     (":CONF" ++ str_int (address (chan w)) ++ ":CURR:RANG?" ++ LF)%string])
              [] (lock_count (host w)) (host_state (host w))))).
Proof.
  destruct w as [c h]. cbn [chan host].
  unfold Chan.get_ic_chamber_parameters, bindM, on_chan, gets, modify, proxy, lift,
    read_voltage, read_range, read_offset, ret.
  chan_compute. split.
  - intros Ha. rewrite (invalid_channel _ Ha). chan_compute.
    rewrite (invalid_channel _ Ha). chan_compute. reflexivity.
  - intros Ha Hio.
    assert (Hvc : valid_channel (address c) = true) by (apply valid_channel_iff, Ha).
    rewrite Hvc. rewrite (query_silent _ true 0%float h Hio). chan_compute.
    rewrite Hvc. erewrite query_silent; [|reflexivity]. chan_compute.
    rewrite <- !app_assoc. reflexivity.
Qed.

Lemma chamber_parameters_without_range_witness :
  Chan.get_ic_chamber_parameters (bench [])
  = (Raise ValueError,
     mkWorld (mkChannel 3 (-1) RANGE_1 0 0.01 0 (PInt 0) false ON)
       (mkHost 0.5 (0.5 + 0)%float [":CONF3:VOLT?" ++ LF; ":CONF3:CURR:RANG?" ++ LF]
          [] 0 ON)).
Proof.
  apply (proj2 (chamber_parameters_without_range (bench []))).
  - cbn. lia.
  - reflexivity.
Defined.

(** ** The exchange, once more *)

(** X11: [query] fails with [DevFailed] exactly when the port itself fails,
    on the write or on the read, and exactly then it leaves the host in
    FAULT; otherwise the state of the host is not touched.  No
    [SerialException] ever leaves [query]. *)
Theorem query_port_failure (cmd : string) (de : bool) (et : float) (h : Host) :
  fst (query cmd de et h) <> Raise SerialException
  /\ ((exists io, port_io h = WriteError :: io \/ port_io h = ReadError :: io) ->
      fst (query cmd de et h) = Raise DevFailed
      /\ host_state (snd (query cmd de et h)) = FAULT)
  /\ ((exists answer, delivers h answer) ->
      fst (query cmd de et h) <> Raise DevFailed
      /\ host_state (snd (query cmd de et h)) = host_state h).
Proof.
  split; [apply query_no_serial_exception|]. split.
  - intros [io [H|H]].
    + rewrite (query_write_error _ _ _ _ _ H). split; reflexivity.
    + rewrite (query_read_error _ _ _ _ _ H). split; reflexivity.
  - intros [answer [[Hio _]|[io Hio]]].
    + rewrite (query_silent _ _ _ _ Hio). split; [discriminate|reflexivity].
    + rewrite (query_received _ _ _ _ _ _ Hio). cbn [fst snd host_state].
      split; [|reflexivity].
      unfold answer_result. destruct (rejected answer de); [discriminate|].
      destruct de; [|discriminate].
      unfold int_of_bytes. destruct (parse_int _); discriminate.
Qed.

Lemma query_port_failure_witness :
  fst (query ("*RST3" ++ LF) false 0 (bench_host [ReadError])) = Raise DevFailed
  /\ host_state (snd (query ("*RST3" ++ LF) false 0 (bench_host [ReadError]))) = FAULT.
Proof.
  apply (proj1 (proj2 (query_port_failure ("*RST3" ++ LF) false 0
                         (bench_host [ReadError])))).
  exists []. right. reflexivity.
Defined.

(** X12: one call of [query] puts its command on the wire once, or not at
    all when the write itself fails; it takes at most one event from the
    port, keeps [command_timeout], and on every way out, the sentinel and
    the exceptions included, leaves the lock count as it found it. *)
Theorem query_sends_once (cmd : string) (de : bool) (et : float) (h : Host) :
  lock_count (snd (query cmd de et h)) = lock_count h
  /\ command_timeout (snd (query cmd de et h)) = command_timeout h
  /\ (wire (snd (query cmd de et h)) = (wire h ++ [cmd])%list
      \/ (wire (snd (query cmd de et h)) = wire h
          /\ exists io, port_io h = WriteError :: io))
  /\ (port_io (snd (query cmd de et h)) = port_io h
      \/ port_io (snd (query cmd de et h)) = tl (port_io h)).
Proof.
  destruct (port_io h) as [|[| |answer] io] eqn:E.
  - rewrite (query_silent _ _ _ _ E). cbn [snd lock_count command_timeout wire port_io].
    repeat split; left; reflexivity.
  - rewrite (query_write_error _ _ _ _ _ E).
    cbn [snd lock_count command_timeout wire port_io tl].
    repeat split; right; [split; [reflexivity|exists io; reflexivity]|reflexivity].
  - rewrite (query_read_error _ _ _ _ _ E).
    cbn [snd lock_count command_timeout wire port_io tl].
    repeat split; [left|right]; reflexivity.
  - rewrite (query_received _ _ _ _ _ _ E).
    cbn [snd lock_count command_timeout wire port_io tl].
    repeat split; [left|right]; reflexivity.
Qed.

(** X14: [write_voltage] sends its command exactly when it is given two
    values, an address in [0..15] and a voltage in [0..1700], both limits
    included; any other call returns nothing and leaves the host as it
    was. *)
Theorem write_voltage_gate (data : list Z) (h : Host) :
  (forall channel_id voltage,
      data = [channel_id; voltage] -> 0 <= channel_id <= 15 -> 0 <= voltage <= 1700 ->
      (forall io, port_io h <> WriteError :: io) ->
      wire (snd (write_voltage data h))
      = (wire h ++ [(":CONF" ++ str_int channel_id ++ ":VOLT "
                       ++ str_int voltage ++ LF)%string])%list)
  /\ (~ (exists channel_id voltage,
            data = [channel_id; voltage] /\ 0 <= channel_id <= 15
            /\ 0 <= voltage <= 1700) ->
      write_voltage data h = (Ok tt, h)).
Proof.
  assert (Hgate : forall c v,
             (valid_channel c && ((MIN_VOLTAGE <=? v) && (v <=? MAX_VOLTAGE))) = true
             <-> (0 <= c <= 15 /\ 0 <= v <= 1700)).
  { intros c v. unfold MIN_VOLTAGE, MAX_VOLTAGE.
    rewrite !andb_true_iff, valid_channel_iff, !Z.leb_le. lia. }
  split.
  - intros c v -> Hc Hv Hw. unfold write_voltage.
    rewrite (proj2 (Hgate c v) (conj Hc Hv)).
    unfold bindM, ret.
    pose proof (query_wire (":CONF" ++ str_int c ++ ":VOLT " ++ str_int v ++ LF)
                  false 0 h Hw) as Q.
    destruct (query _ false 0%float h) as [[a|e] h']; exact Q.
  - intros Hno. unfold write_voltage.
    destruct data as [|c [|v [|x rest]]]; try reflexivity.
    destruct (valid_channel c && ((MIN_VOLTAGE <=? v) && (v <=? MAX_VOLTAGE))) eqn:E;
      [|reflexivity].
    exfalso. apply Hno. exists c, v. split; [reflexivity|]. apply Hgate, E.
Qed.

Lemma write_voltage_gate_witness :
  wire (snd (write_voltage [3; 1700] (bench_host [Received ACK])))
  = [":CONF3:VOLT 1700" ++ LF]
  /\ write_voltage [3; 1701] (bench_host [Received ACK])
     = (Ok tt, bench_host [Received ACK]).
Proof.
  split.
  - apply (proj1 (write_voltage_gate [3; 1700] (bench_host [Received ACK]))
             3 1700 eq_refl).
    + lia.
    + lia.
    + intros io. discriminate.
  - apply (proj2 (write_voltage_gate [3; 1701] (bench_host [Received ACK]))).
    intros (c & v & E & _ & Hv). injection E as <- <-. lia.
Defined.

(** ** The measurement loop, at its edges *)

Lemma leb_nan (x t : float) : is_nan t = true -> (x <=? t)%float = false.
Proof.
  intros H. rewrite leb_spec, (nan_SF t H). unfold SFleb.
  destruct (Prim2SF x); reflexivity.
Qed.

Ltac loop_compute :=
  cbv beta iota;
  cbn [chan host fst snd address _high_voltage _range _offset _exposition_time
       _current _raw_current _stop state set_state set_stop set_current
       set_raw_current DevState_eqb cycles accum0 Z.ltb Z.compare].

(** A run whose first look at the clock or at the flag already ends it. *)
Lemma measure_ends_at_once (start_time : float) (tk : tick) (ticks : list tick)
    (w : World) :
  stop_called tk = true
  \/ (now tk - start_time <=? _exposition_time (chan w))%float = false ->
  __measure start_time (tk :: ticks) w
  = (Ok (Some accum0), mkWorld (nothing_measured (chan w)) (host w)).
Proof.
  intros H. destruct w as [c h]. destruct c as [ad hv rg off ex cu rc st sta].
  unfold __measure. cbn [measure_loop].
  unfold loop_exit, loop_body, loop_try, stop, try_except, bindM, on_chan, gets,
    modify, ret, raise, lift.
  loop_compute.
  destruct (stop_called tk) eqn:Hs; loop_compute.
  - destruct (now tk - start_time <=? ex)%float; loop_compute; reflexivity.
  - destruct H as [H|H]; [discriminate|]. cbn [chan _exposition_time] in H.
    rewrite H. loop_compute. reflexivity.
Qed.

(** X15: a measurement whose first look at the clock finds the exposition
    time used up, or whose first pass finds that [stop] has been called,
    sends nothing: it ends with NaN as current, [-1] as raw current, the
    flag cleared and the state ON, the settings and the host untouched.  A
    NaN exposition time is a case of this, whatever the clock says. *)
Theorem measurement_can_end_unmeasured (start_time : float) (tk : tick)
    (ticks : list tick) (w : World) :
  (stop_called tk = true
   \/ (now tk - start_time <=? _exposition_time (chan w))%float = false ->
   __measure start_time (tk :: ticks) w
   = (Ok (Some accum0), mkWorld (nothing_measured (chan w)) (host w)))
  /\ (is_nan (_exposition_time (chan w)) = true ->
      __measure start_time (tk :: ticks) w
      = (Ok (Some accum0), mkWorld (nothing_measured (chan w)) (host w))).
Proof.
  split.
  - apply measure_ends_at_once.
  - intros Hn. apply measure_ends_at_once. right. apply leb_nan, Hn.
Qed.

Lemma measurement_can_end_unmeasured_witness :
  __measure 100 [mkTick 100.001 true; quiet 100.002] (bench [answers 7])
  = (Ok (Some accum0), mkWorld (nothing_measured bench_channel) (bench_host [answers 7]))
  /\ __measure 100 [quiet 100.5] (bench [answers 7])
     = (Ok (Some accum0),
        mkWorld (nothing_measured bench_channel) (bench_host [answers 7])).
Proof.
  split.
  - apply (proj1 (measurement_can_end_unmeasured 100 (mkTick 100.001 true)
                    [quiet 100.002] (bench [answers 7]))).
    left. reflexivity.
  - apply (proj1 (measurement_can_end_unmeasured 100 (quiet 100.5) []
                    (bench [answers 7]))).
    right. vm_compute. reflexivity.
Defined.

(** X16: a measurement sends nothing but the read command of its own
    channel, at most one for each pass of the loop, and it never counts a
    cycle for which it has not sent one: however the method ends, the wire
    has grown by [k] read commands, with [k] at most the number of passes
    and, when the method ends normally, [cycles <= k]. *)
Theorem measurement_sends_only_its_reads (start_time : float) (ticks : list tick)
    (w : World) :
  exists k,
    (k <= List.length ticks)%nat
    /\ wire (host (snd (__measure start_time ticks w)))
       = (wire (host w) ++ repeat (read_command (address (chan w))) k)%list
    /\ (forall a, fst (__measure start_time ticks w) = Ok (Some a) ->
        cycles a <= Z.of_nat k).
Proof.
  rewrite measure_unfold.
  set (w0 := mkWorld (set_state RUNNING (chan w)) (host w)).
  destruct (measure_loop_wire start_time ticks accum0 w0) as (k & Hk & Hwire & Hcyc).
  exists k. split; [exact Hk|].
  destruct (measure_loop start_time ticks accum0 w0) as [[[a|]|e] w1];
    cbn [fst snd] in *.
  - destruct (loop_exit_host a w1) as [Hh Ha]. rewrite Hh. split; [exact Hwire|].
    intros a' H. apply Ha in H. subst a'. specialize (Hcyc a eq_refl).
    cbn [cycles accum0] in Hcyc. lia.
  - split; [exact Hwire|]. discriminate.
  - split; [exact Hwire|]. discriminate.
Qed.





